(** * cocotb_bus.drivers: a shallow embedding and its properties

    The module [cocotb_bus/drivers/__init__.py] defines the driver base
    classes of cocotb-bus: [BitDriver], [Driver], [BusDriver],
    [ValidatedBusDriver] and the coroutine [polled_socket_attachment].

    The classes are coroutines run by cocotb's cooperative scheduler.  A
    coroutine is embedded as a resumable machine: a program counter that
    names the [await] at which the coroutine is parked, and a function that
    runs it from there to its next [await].  Everything between two awaits
    is atomic, as it is under the scheduler.  Calls made by the test bench
    ([append], [clear], [kill], [send]) and resumptions of parked coroutines
    are the actions of a schedule.

    What lies outside the module is kept abstract: transactions, callbacks
    and Events are opaque objects; a subclass's [_driver_send] is known by
    how often it awaits and whether it returns or raises; callbacks and
    [Event.set] return without calling back into the driver; the logger is
    modelled only where a message tells the paths of a function apart. *)

From Stdlib Require Import List Bool Arith Lia ZArith String.
From Stdlib Require Import DecimalString DecimalZ.
Import ListNotations.

Set Implicit Arguments.

(** Exceptions that the modelled code raises or lets through. *)
Inductive exn : Type :=
| NotImplementedError      (* Driver._driver_send of the base class *)
| TypeError                (* unexpected keyword argument *)
| NoGeneratorProvided      (* Exception("No generator provided!") *)
| StopIterationInTask      (* next() on an exhausted generator inside a task *)
| AttributeError           (* None has no attribute kill *)
| UserError (code : nat).  (* anything a subclass's send raises *)

(** ** Generators of (on, off) pairs

    A Python generator is a deterministic source that either yields its
    next item or raises StopIteration, and stays exhausted once it has.  It
    is modelled by the items it would yield and the position reached;
    the position does not move on exhaustion. *)
Record generator : Type := Generator {
  gen_items : nat -> option (Z * Z);
  gen_pos : nat
}.

(** [next(g)]: [None] stands for StopIteration. *)
Definition next (g : generator) : option ((Z * Z) * generator) :=
  match gen_items g (gen_pos g) with
  | Some p => Some (p, Generator (gen_items g) (S (gen_pos g)))
  | None => None
  end.

(** [iter(l)] for a list of pairs. *)
Definition gen_of_list (l : list (Z * Z)) : generator :=
  Generator (nth_error l) 0.

(** [itertools.cycle(l)] for a non-empty list of pairs. *)
Definition gen_cycle (l : list (Z * Z)) : generator :=
  Generator (fun i => nth_error l (i mod List.length l)) 0.

(** ** Driver *)
Module Driver.

(** What one call of the coroutine [_driver_send] does, seen from its
    caller: it is parked [awaits] times on triggers of its own, then
    returns ([result = None]) or raises. *)
Record send_run : Type := SendRun {
  awaits : nat;
  result : option exn
}.

Section WithPayload.

(** Transactions, keyword-argument values, callbacks and cocotb Events are
    opaque Python objects. *)
Variables T V Cb Ev : Type.

Definition kwargs_t : Type := list (string * V).

(** The abstract method: every subclass supplies its own [_driver_send]. *)
Class DriverSend : Type :=
  _driver_send : T -> bool -> kwargs_t -> send_run.

Context {DS : DriverSend}.

(** The tuple [(transaction, callback, event, kwargs)] that [append] puts
    on the queue.  [eid] is the identity of the tuple object: [append]
    builds a fresh tuple at every call. *)
Record entry : Type := Entry {
  eid : nat;
  transaction : T;
  callback : option Cb;
  event : option Ev;
  kwargs : kwargs_t
}.

(** Who called [_send]: the drain task for a queued tuple, or [send]. *)
Inductive origin : Type :=
| Queued (id : nat)
| Direct.

(** Observable actions of the driver, in the order they happen. *)
Inductive obs : Type :=
| ObsDriverSend (o : origin) (t : T) (sync : bool) (kw : kwargs_t)
| ObsEventSet (o : origin) (ev : Ev)
| ObsCallback (o : origin) (cb : Cb) (t : T).

(** How far a call of [_send] got. *)
Inductive status : Type :=
| Parked (more : nat)   (* awaiting inside _driver_send *)
| Returned
| Raised (x : exn).

(** Where the coroutine [_send_thread] is parked. *)
Inductive drain_pc : Type :=
| AtStart                                   (* scheduled by start_soon, not run yet *)
| AtPendingWait                             (* await self._pending.wait() *)
| InDriverSend (e : entry) (sync : bool) (more : nat)
                                            (* inside await self._send(...) *)
| Finished (x : exn).                       (* an exception ended the task *)

(** A caller parked inside [await driver.send(...)]. *)
Record caller : Type := Caller {
  c_transaction : T;
  c_sync : bool;
  c_kwargs : kwargs_t;
  c_more : nat
}.

Record state : Type := State {
  _sendQ : list entry;
  _pending : bool;            (* the flag of Event Driver._pending *)
  busy_event : bool;          (* the flag of Event Driver._busy *)
  busy : bool;
  _thread : option drain_pc;  (* None after kill *)
  callers : list caller;      (* calls of send in flight *)
  next_id : nat;              (* identity of the next queued tuple *)
  trace : list obs
}.

(** The truth value of a task handle in [if self._thread:] belongs to the
    scheduler's task class. *)
Variable task_bool : drain_pc -> bool.

(** [Driver.__init__] *)
Definition init : state :=
  State [] false false false (Some AtStart) [] 0 [].

Definition set_sendQ (q : list entry) (st : state) : state :=
  State q (_pending st) (busy_event st) (busy st) (_thread st)
        (callers st) (next_id st) (trace st).

Definition set_pending (b : bool) (st : state) : state :=
  State (_sendQ st) b (busy_event st) (busy st) (_thread st)
        (callers st) (next_id st) (trace st).

Definition set_busy_event (b : bool) (st : state) : state :=
  State (_sendQ st) (_pending st) b (busy st) (_thread st)
        (callers st) (next_id st) (trace st).

Definition set_busy (b : bool) (st : state) : state :=
  State (_sendQ st) (_pending st) (busy_event st) b (_thread st)
        (callers st) (next_id st) (trace st).

Definition set_thread (th : option drain_pc) (st : state) : state :=
  State (_sendQ st) (_pending st) (busy_event st) (busy st) th
        (callers st) (next_id st) (trace st).

Definition set_callers (cs : list caller) (st : state) : state :=
  State (_sendQ st) (_pending st) (busy_event st) (busy st) (_thread st)
        cs (next_id st) (trace st).

Definition set_next_id (n : nat) (st : state) : state :=
  State (_sendQ st) (_pending st) (busy_event st) (busy st) (_thread st)
        (callers st) n (trace st).

Definition emit (os : list obs) (st : state) : state :=
  State (_sendQ st) (_pending st) (busy_event st) (busy st) (_thread st)
        (callers st) (next_id st) (trace st ++ os).

(** [_acquire_lock], up to its await: [None] when it parks on
    [busy_event.wait()]. *)
Definition _acquire_lock (st : state) : option state :=
  if busy st then None
  else Some (set_busy true (set_busy_event false st)).

(** [_acquire_lock] resumed after [busy_event.wait()]: the flag is not
    tested again. *)
Definition _acquire_lock_resumed (st : state) : state :=
  set_busy true (set_busy_event false st).

(** [_release_lock] *)
Definition _release_lock (st : state) : state :=
  set_busy_event true (set_busy false st).

(** [kill] *)
Definition kill (st : state) : state :=
  match _thread st with
  | Some pc => if task_bool pc then set_thread None st else st
  | None => st
  end.

(** [append] *)
Definition append (t : T) (cb : option Cb) (ev : option Ev) (kw : kwargs_t)
    (st : state) : state :=
  set_pending true
    (set_next_id (S (next_id st))
       (set_sendQ (_sendQ st ++ [Entry (next_id st) t cb ev kw]) st)).

(** [clear] *)
Definition clear (st : state) : state := set_sendQ [] st.

(** The tail of [_send], after [_driver_send] has returned: the event is
    set first, then the callback is called. *)
Definition notify (o : origin) (t : T) (cb : option Cb) (ev : option Ev)
    : list obs :=
  match ev with Some e => [ObsEventSet o e] | None => [] end ++
  match cb with Some c => [ObsCallback o c t] | None => [] end.

(** [_send] resumed for the last time: [_driver_send] returns, and the
    world is notified, or it raises. *)
Definition _send_finish (o : origin) (t : T) (cb : option Cb)
    (ev : option Ev) (sync : bool) (kw : kwargs_t) (st : state)
    : status * state :=
  match result (_driver_send t sync kw) with
  | Some x => (Raised x, st)
  | None => (Returned, emit (notify o t cb ev) st)
  end.

(** The named parameters of [_send]. *)
Definition send_params : list string :=
  ["self"; "transaction"; "callback"; "event"; "sync"]%string.

(** Both callers of [_send] pass their keyword arguments on with
    [**kwargs], next to [transaction], [callback], [event] and [sync]:
    a keyword named like a parameter of [_send] gets two values. *)
Definition clashes (kw : kwargs_t) : bool :=
  existsb (fun p => existsb (String.eqb (fst p)) send_params) kw.

(** [_send], from its call to its first await, or to its end when
    [_driver_send] does not await.  The call itself raises TypeError when
    a keyword clashes, before anything of the body runs. *)
Definition _send (o : origin) (t : T) (cb : option Cb) (ev : option Ev)
    (sync : bool) (kw : kwargs_t) (st : state) : status * state :=
  if clashes kw then (Raised TypeError, st)
  else
    let st1 := emit [ObsDriverSend o t sync kw] st in
    match awaits (_driver_send t sync kw) with
    | S n => (Parked n, st1)
    | O => _send_finish o t cb ev sync kw st1
    end.

(** The loop [while self._sendQ:] of [_send_thread], entered with the
    local [synchronised], run until the task parks or dies.  When the
    queue is found empty control is back in [while not self._sendQ:],
    which clears [_pending] and waits. *)
Fixpoint send_queued (q : list entry) (synchronised : bool) (st : state)
    : state :=
  match q with
  | [] => set_thread (Some AtPendingWait) (set_pending false (set_sendQ [] st))
  | e :: q' =>
      let sync := negb synchronised in
      match _send (Queued (eid e)) (transaction e) (callback e) (event e)
                  sync (kwargs e) (set_sendQ q' st) with
      | (Parked n, st1) => set_thread (Some (InDriverSend e sync n)) st1
      | (Raised x, st1) => set_thread (Some (Finished x)) st1
      | (Returned, st1) => send_queued q' true st1
      end
  end.

(** The scheduler resumes the drain task. *)
Definition _send_thread (st : state) : state :=
  match _thread st with
  | None => st
  | Some AtStart => send_queued (_sendQ st) false st
  | Some AtPendingWait =>
      if _pending st then send_queued (_sendQ st) false st else st
  | Some (InDriverSend e sync (S n)) =>
      set_thread (Some (InDriverSend e sync n)) st
  | Some (InDriverSend e sync O) =>
      match _send_finish (Queued (eid e)) (transaction e) (callback e)
                         (event e) sync (kwargs e) st with
      | (Raised x, st1) => set_thread (Some (Finished x)) st1
      | (_, st1) => send_queued (_sendQ st1) true st1
      end
  | Some (Finished _) => st
  end.

(** [send]: the caller runs [_send(transaction, None, None, sync=sync,
    **kwargs)] up to its first await; the TypeError of a clashing keyword
    and an exception of [_driver_send] go to the caller. *)
Definition send (t : T) (sync : bool) (kw : kwargs_t) (st : state) : state :=
  match _send Direct t None None sync kw st with
  | (Parked n, st1) => set_callers (callers st ++ [Caller t sync kw n]) st1
  | (_, st1) => st1
  end.

Fixpoint resume_nth (i : nat) (cs : list caller) : list caller :=
  match cs, i with
  | [], _ => []
  | c :: cs', O =>
      match c_more c with
      | S n => Caller (c_transaction c) (c_sync c) (c_kwargs c) n :: cs'
      | O => cs'
      end
  | c :: cs', S j => c :: resume_nth j cs'
  end.

(** The scheduler resumes the [i]-th caller parked in [send]. *)
Definition resume_send (i : nat) (st : state) : state :=
  set_callers (resume_nth i (callers st)) st.

(** What the test bench and the scheduler can do to a driver. *)
Inductive action : Type :=
| Append (t : T) (cb : option Cb) (ev : option Ev) (kw : kwargs_t)
| Clear
| Kill
| Resume
| Send (t : T) (sync : bool) (kw : kwargs_t)
| ResumeSend (i : nat).

Definition step (st : state) (a : action) : state :=
  match a with
  | Append t cb ev kw => append t cb ev kw st
  | Clear => clear st
  | Kill => kill st
  | Resume => _send_thread st
  | Send t sync kw => send t sync kw st
  | ResumeSend i => resume_send i st
  end.

Definition run (sched : list action) (st : state) : state :=
  fold_left step sched st.

(** *** Reading a trace *)

(** The transactions handed to [_driver_send] by the drain task, in order. *)
Fixpoint queued_sends (tr : list obs) : list T :=
  match tr with
  | [] => []
  | ObsDriverSend (Queued _) t _ _ :: tr' => t :: queued_sends tr'
  | _ :: tr' => queued_sends tr'
  end.

(** The same calls as (tuple identity, sync flag). *)
Fixpoint queued_syncs (tr : list obs) : list (nat * bool) :=
  match tr with
  | [] => []
  | ObsDriverSend (Queued id) _ sync _ :: tr' => (id, sync) :: queued_syncs tr'
  | _ :: tr' => queued_syncs tr'
  end.

(** Tuples whose event was set or whose callback was called. *)
Fixpoint notified (tr : list obs) : list nat :=
  match tr with
  | [] => []
  | ObsEventSet (Queued id) _ :: tr' => id :: notified tr'
  | ObsCallback (Queued id) _ _ :: tr' => id :: notified tr'
  | _ :: tr' => notified tr'
  end.

(** Tuples that were handed to [_driver_send]. *)
Definition sent (tr : list obs) : list nat := map fst (queued_syncs tr).

(** The transactions of the [append] calls of a schedule, in order. *)
Fixpoint appended (sched : list action) : list T :=
  match sched with
  | [] => []
  | Append t _ _ _ :: s => t :: appended s
  | _ :: s => appended s
  end.

(** Schedules in which nobody empties the queue or kills the task. *)
Definition keeps_queue (a : action) : bool :=
  match a with
  | Clear | Kill => false
  | _ => true
  end.

(** The drain task is parked outside any batch. *)
Definition parked (st : state) : bool :=
  match _thread st with
  | Some AtStart | Some AtPendingWait => true
  | _ => false
  end.

(** The drain task is inside a call of [_driver_send]. *)
Definition in_send (st : state) : bool :=
  match _thread st with
  | Some (InDriverSend _ _ _) => true
  | _ => false
  end.

(** Low-level sends in flight: the drain task's and the callers of [send]. *)
Definition in_flight (st : state) : nat :=
  (if in_send st then 1 else 0) + List.length (callers st).

(** The tuple the drain task holds while inside [_driver_send]. *)
Definition held (st : state) : option nat :=
  match _thread st with
  | Some (InDriverSend e _ _) => Some (eid e)
  | _ => None
  end.

(** [sched] keeps the drain task inside [_driver_send] before each of its
    actions: the batch under way is not over. *)
Fixpoint stays_in_send (sched : list action) (st : state) : bool :=
  match sched with
  | [] => true
  | a :: s => in_send st && stays_in_send s (step st a)
  end.

(** The concrete send always returns. *)
Definition always_returns : Prop :=
  forall t sync kw, result (_driver_send t sync kw) = None.

(** Everything queued has been handed over and the task waits for more. *)
Definition drained (st : state) : Prop :=
  _sendQ st = [] /\ _thread st = Some AtPendingWait.

(** A bound on the resumptions one queued tuple can take. *)
Definition cost (e : entry) : nat :=
  S (Nat.max (awaits (_driver_send (transaction e) true (kwargs e)))
             (awaits (_driver_send (transaction e) false (kwargs e)))).

Definition queue_cost (q : list entry) : nat := list_sum (map cost q).

(** A bound on the resumptions the drain task needs to empty the queue. *)
Definition todo (st : state) : nat :=
  match _thread st with
  | Some AtStart => S (queue_cost (_sendQ st))
  | Some AtPendingWait =>
      match _sendQ st with
      | [] => 0
      | _ :: _ => S (queue_cost (_sendQ st))
      end
  | Some (InDriverSend _ _ more) => S (more + queue_cost (_sendQ st))
  | _ => 0
  end.

(** The drain task runs, and it does not sleep on a non-empty queue. *)
Definition awake (st : state) : Prop :=
  match _thread st with
  | Some AtStart | Some (InDriverSend _ _ _) => True
  | Some AtPendingWait => _pending st = false -> _sendQ st = []
  | _ => False
  end.

(** Queued tuples as calls without synchronisation. *)
Definition unsynced (q : list entry) : list (nat * bool) :=
  map (fun e => (eid e, false)) q.

(** The drain task is inside a batch, or has finished one. *)
Definition in_batch (st : state) : Prop :=
  in_send st = true \/ drained st.

(** The identities of queued tuples. *)
Definition ids (q : list entry) : list nat := map eid q.

(** Tuple [i] is out of the driver's reach: it is not queued, not held by
    the drain task, was never sent nor notified, and no later tuple can
    take its identity. *)
Definition untouched (i : nat) (st : state) : Prop :=
  i < next_id st /\ ~ In i (ids (_sendQ st)) /\ held st <> Some i /\
  ~ In i (sent (trace st)) /\ ~ In i (notified (trace st)).

(** Queued tuples are distinct objects that the drain task has not seen. *)
Definition queue_fresh (st : state) : Prop :=
  NoDup (ids (_sendQ st)) /\
  (forall i, In i (ids (_sendQ st)) \/ In i (sent (trace st)) \/
             In i (notified (trace st)) \/ held st = Some i ->
             i < next_id st) /\
  (forall i, In i (ids (_sendQ st)) ->
             ~ In i (sent (trace st)) /\ ~ In i (notified (trace st)) /\
             held st <> Some i).

(** The task never sleeps on a non-empty queue (dead or alive). *)
Definition no_lost_wakeup (st : state) : Prop :=
  _thread st = Some AtPendingWait -> _pending st = false -> _sendQ st = [].

(** *** More ways to read a state *)

(** The drain task is gone: killed, or ended by an exception. *)
Definition dead (st : state) : Prop :=
  match _thread st with
  | None | Some (Finished _) => True
  | _ => False
  end.

(** The notifications of queued tuples, in the order they happen. *)
Fixpoint notes (tr : list obs) : list obs :=
  match tr with
  | [] => []
  | ObsEventSet (Queued id) ev :: tr' => ObsEventSet (Queued id) ev :: notes tr'
  | ObsCallback (Queued id) cb t :: tr' =>
      ObsCallback (Queued id) cb t :: notes tr'
  | _ :: tr' => notes tr'
  end.

(** What [_send] will notify for the tuples of [q], in queue order. *)
Definition owed (q : list entry) : list obs :=
  flat_map
    (fun e => notify (Queued (eid e)) (transaction e) (callback e) (event e))
    q.

(** The tuple inside [_driver_send], if any. *)
Definition held_entry (st : state) : list entry :=
  match _thread st with
  | Some (InDriverSend e _ _) => [e]
  | _ => []
  end.

(** The notifications the [append] calls of a schedule ask for, in order;
    [n] is the identity the next tuple gets. *)
Fixpoint expected (n : nat) (sched : list action) : list obs :=
  match sched with
  | [] => []
  | Append t cb ev _ :: s => notify (Queued n) t cb ev ++ expected (S n) s
  | _ :: s => expected n s
  end.

(** Identities are used once: sent and queued tuples are all distinct
    and older than the next identity, and what is notified or held was
    sent. *)
Definition tidy (st : state) : Prop :=
  NoDup (sent (trace st) ++ ids (_sendQ st)) /\
  (forall i, In i (sent (trace st) ++ ids (_sendQ st)) -> i < next_id st) /\
  (forall i, In i (notified (trace st)) -> In i (sent (trace st))) /\
  (forall i, held st = Some i -> In i (sent (trace st))).

(** Tuples whose keyword arguments [_send] accepts. *)
Definition plain (q : list entry) : Prop :=
  Forall (fun e => clashes (kwargs e) = false) q.

(** Appends whose keyword arguments [_send] accepts. *)
Definition plain_action (a : action) : bool :=
  match a with
  | Append _ _ _ kw => negb (clashes kw)
  | _ => true
  end.

(** The queued tuple an event or callback record belongs to. *)
Definition notice (o : obs) : option nat :=
  match o with
  | ObsEventSet (Queued i) _ | ObsCallback (Queued i) _ _ => Some i
  | _ => None
  end.

(** Every notification in [tr] is of a tuple in [seen] or of one handed
    to [_driver_send] earlier in [tr]. *)
Fixpoint in_order (seen : list nat) (tr : list obs) : Prop :=
  match tr with
  | [] => True
  | ObsDriverSend (Queued i) _ _ _ :: tr' => in_order (i :: seen) tr'
  | ObsEventSet (Queued i) _ :: tr' => In i seen /\ in_order seen tr'
  | ObsCallback (Queued i) _ _ :: tr' => In i seen /\ in_order seen tr'
  | _ :: tr' => in_order seen tr'
  end.

(** The tuples of [q] that [_send] accepts. *)
Definition accepted (q : list entry) : list entry :=
  filter (fun e => negb (clashes (kwargs e))) q.

(** Schedules in which nobody kills the task. *)
Definition keeps_task (a : action) : bool :=
  match a with
  | Kill => false
  | _ => true
  end.

End WithPayload.

Arguments init {T V Cb Ev}.
Arguments always_returns {T V DS}.
Arguments notify [T V Cb Ev] o t cb ev.

End Driver.

(** ** The two send implementations of the module *)

(** [Driver._driver_send]: the base class raises at once. *)
Definition base_driver_send (T V : Type) : Driver.DriverSend T V :=
  fun _ _ _ => Driver.SendRun 0 (Some NotImplementedError).

(** [BusDriver._driver_send(transaction, sync)]: it takes no keyword
    arguments; with [sync] it awaits one rising edge of the clock, then it
    assigns the transaction to the bus and returns. *)
Definition bus_driver_send (T V : Type) : Driver.DriverSend T V :=
  fun _ sync kw =>
    match kw with
    | [] => Driver.SendRun (if sync then 1 else 0) None
    | _ :: _ => Driver.SendRun 0 (Some TypeError)
    end.

(** ** ValidatedBusDriver: the valid-cycle window *)
Module ValidatedBusDriver.

(** The values the attributes [on] and [off] take: [None] from the
    constructor, [True]/[False], or a cycle count from the generator. *)
Inductive attr : Type :=
| PyNone
| PyBool (b : bool)
| PyInt (z : Z).

(** Python truth value, as tested by [while not self.on]. *)
Definition truthy (a : attr) : bool :=
  match a with
  | PyNone => false
  | PyBool b => b
  | PyInt z => negb (z =? 0)%Z
  end.

Inductive log_record : Type :=
| InfoExhausted                    (* "Valid generator exhausted, ..." *)
| DebugWillBeOn (a b : attr)       (* "Will be on for %d cycles, off for %s" *)
| DebugNoGenerator.                (* "Not using valid generator" *)

Record state : Type := State {
  on : attr;
  off : attr;
  valid_generator : option generator;
  log : list log_record
}.

(** The loop [while not self.on:] of [_next_valids], with [g] the generator
    object held by [self.valid_generator].  [fuel] bounds the number of
    times the loop condition is tested; [None] means the bound was hit. *)
Fixpoint valids_loop (fuel : nat) (g : generator) (st : state)
    : option state :=
  match fuel with
  | O => None
  | S f =>
      if truthy (on st) then
        Some (State (on st) (off st) (valid_generator st)
                    (log st ++ [DebugWillBeOn (on st) (off st)]))
      else
        match next g with
        | None =>
            Some (State (PyBool true) (off st) (valid_generator st)
                        (log st ++ [InfoExhausted]))
        | Some ((a, b), g') =>
            valids_loop f g' (State (PyInt a) (PyInt b) (Some g') (log st))
        end
  end.

(** [_next_valids] *)
Definition _next_valids (fuel : nat) (st : state) : option state :=
  let st0 := State (PyBool false) (off st) (valid_generator st) (log st) in
  match valid_generator st with
  | Some g => valids_loop fuel g st0
  | None =>
      Some (State (PyBool true) (PyBool false) None
                  (log st ++ [DebugNoGenerator]))
  end.

(** [set_valid_generator] *)
Definition set_valid_generator (fuel : nat) (g : option generator)
    (st : state) : option state :=
  _next_valids fuel (State (on st) (off st) g (log st)).

(** The part of [__init__] that concerns the window. *)
Definition init (fuel : nat) (g : option generator) : option state :=
  set_valid_generator fuel g (State PyNone PyNone None []).

(** [n] calls of [_next_valids] in a row. *)
Fixpoint calls (n fuel : nat) (st : state) : option state :=
  match n with
  | O => Some st
  | S m =>
      match _next_valids fuel st with
      | Some st' => calls m fuel st'
      | None => None
      end
  end.

(** The [off] count of the last of the [n] pairs pulled from [g], or
    [before] when none was pulled. *)
Definition last_off (g : generator) (n : nat) (before : attr) : attr :=
  match n with
  | O => before
  | S m =>
      match gen_items g (gen_pos g + m) with
      | Some (_, b) => PyInt b
      | None => before
      end
  end.

(** [g] after [n] more items. *)
Definition advanced (g : generator) (n : nat) : generator :=
  Generator (gen_items g) (gen_pos g + n).

(** The call left through the StopIteration handler. *)
Definition left_exhausted (before after : state) : Prop :=
  log after = log before ++ [InfoExhausted].

End ValidatedBusDriver.

(** ** BitDriver *)
Module BitDriver.

(** Where a task running [_cr_twiddler] stands. *)
Inductive twiddler_pc : Type :=
| Created (generator : option generator)  (* coroutine object, body not entered *)
| High (more : nat) (off : Z)             (* for _ in range(on): await edge *)
| Low (more : nat)                        (* for _ in range(off): await edge *)
| Failed (x : exn)
| Killed.

Record state : Type := State {
  _signal : list Z;               (* the values assigned to the signal *)
  _generator : option generator;
  tasks : list twiddler_pc;       (* every task forked so far *)
  _cr : option nat                (* the handle kept by start *)
}.

(** [BitDriver.__init__] *)
Definition init (g : option generator) : state := State [] g [] None.

(** The body of [while True:] from its top to the next await.  [fuel]
    bounds the number of pairs pulled without awaiting. *)
Fixpoint twiddle (fuel : nat) (sig : list Z) (g : generator)
    : option (list Z * generator * twiddler_pc) :=
  match fuel with
  | O => None
  | S f =>
      match next g with
      | None => Some (sig, g, Failed StopIterationInTask)
      | Some ((n_on, n_off), g') =>
          match Z.to_nat n_on with
          | S n => Some (sig ++ [1%Z], g', High n n_off)
          | O =>
              match Z.to_nat n_off with
              | S m => Some (sig ++ [1%Z; 0%Z], g', Low m)
              | O => twiddle f (sig ++ [1%Z; 0%Z]) g'
              end
          end
      end
  end.

Definition set_task (i : nat) (pc : twiddler_pc) (ts : list twiddler_pc)
    : list twiddler_pc :=
  firstn i ts ++ match skipn i ts with [] => [] | _ :: r => pc :: r end.

Definition enter_loop (fuel i : nat) (sig : list Z) (g : generator)
    (st : state) : option state :=
  match twiddle fuel sig g with
  | None => None
  | Some (sig', g', pc) =>
      Some (State sig' (Some g') (set_task i pc (tasks st)) (_cr st))
  end.

(** [_cr_twiddler]: the scheduler runs task [i] to its next await. *)
Definition _cr_twiddler (fuel i : nat) (st : state) : option state :=
  match nth_error (tasks st) i with
  | None | Some (Failed _) | Some Killed => Some st
  | Some (Created generator) =>
      match generator, _generator st with
      | None, None =>
          Some (State (_signal st) (_generator st)
                      (set_task i (Failed NoGeneratorProvided) (tasks st))
                      (_cr st))
      | Some g, _ => enter_loop fuel i (_signal st) g st
      | None, Some g => enter_loop fuel i (_signal st) g st
      end
  | Some (High (S n) n_off) =>
      Some (State (_signal st) (_generator st)
                  (set_task i (High n n_off) (tasks st)) (_cr st))
  | Some (High O n_off) =>
      match Z.to_nat n_off, _generator st with
      | S m, _ =>
          Some (State (_signal st ++ [0%Z]) (_generator st)
                      (set_task i (Low m) (tasks st)) (_cr st))
      | O, Some g => enter_loop fuel i (_signal st ++ [0%Z]) g st
      | O, None => Some st
      end
  | Some (Low (S m)) =>
      Some (State (_signal st) (_generator st)
                  (set_task i (Low m) (tasks st)) (_cr st))
  | Some (Low O) =>
      match _generator st with
      | Some g => enter_loop fuel i (_signal st) g st
      | None => Some st
      end
  end.

(** [start].  Calling the [async def] [_cr_twiddler] only builds the
    coroutine object ([Created]); its body, with the generator check, runs
    when the task is first stepped.  [cocotb.fork] is the scheduler's, not
    this module's: it makes a task of the coroutine object and returns its
    handle.  Whether it steps the new task up to its first await before
    returning is the scheduler's choice ([eager]); in both cases what the
    coroutine raises ends the task and stays with it ([Failed]). *)
Definition start (eager : bool) (fuel : nat) (generator : option generator)
    (st : state) : option state :=
  let i := List.length (tasks st) in
  let st1 :=
    State (_signal st) (_generator st) (tasks st ++ [Created generator])
          (Some i) in
  if eager then _cr_twiddler fuel i st1 else Some st1.

(** [stop] *)
Definition stop (st : state) : exn + state :=
  match _cr st with
  | None => inl AttributeError
  | Some i =>
      match nth_error (tasks st) i with
      | Some (Failed _) | Some Killed | None => inr st
      | Some _ =>
          inr (State (_signal st) (_generator st)
                     (set_task i Killed (tasks st)) (_cr st))
      end
  end.

(** The state of the task whose handle [start] kept. *)
Definition current_task (st : state) : option twiddler_pc :=
  match _cr st with
  | Some i => nth_error (tasks st) i
  | None => None
  end.

End BitDriver.

(** ** polled_socket_attachment *)
Module Socket.

(** What [sock.recv(4096)] does on a non-blocking socket: it returns bytes
    or raises [socket.error]; [errno] is [e.args[0]]. *)
Inductive recv_result : Type :=
| Data (data : list Byte.byte)
| SocketError (errno : Z).

(** How one turn of the loop ends. *)
Inductive turn : Type :=
| Continue            (* back to await RisingEdge(driver.clock) *)
| Break               (* the loop is left, the coroutine returns *)
| Raise (errno : Z).  (* the socket error goes out of the coroutine *)

Section WithDriver.

Variables T V Cb Ev : Type.

(** The platform's [errno.EAGAIN] and [errno.EWOULDBLOCK]. *)
Variables EAGAIN EWOULDBLOCK : Z.

(** Received bytes are a transaction like any other object. *)
Variable of_bytes : list Byte.byte -> T.

Abbreviation dstate := (Driver.state T V Cb Ev).

(** One turn of [while True:], after the rising edge. *)
Definition poll_once (r : recv_result) (st : dstate) : turn * dstate :=
  match r with
  | SocketError e =>
      if ((e =? EAGAIN) || (e =? EWOULDBLOCK))%Z then (Continue, st)
      else (Raise e, st)
  | Data data =>
      if negb (0 <? List.length data) then (Break, st)
      else (Continue, Driver.append (of_bytes data) None None [] st)
  end.

(** The coroutine over the results of the successive [recv] calls:
    [None] when it is still polling after the last of them. *)
Fixpoint polled_socket_attachment (recvs : list recv_result) (st : dstate)
    : option turn * dstate :=
  match recvs with
  | [] => (None, st)
  | r :: rs =>
      match poll_once r st with
      | (Continue, st') => polled_socket_attachment rs st'
      | (t, st') => (Some t, st')
      end
  end.

End WithDriver.
End Socket.

(** ** BitDriver over several clock edges *)
Module BitDriverRun.
Import BitDriver.

(** [k] rising edges of the clock in a row, each resuming task [i]. *)
Fixpoint edges (fuel i k : nat) (st : state) : option state :=
  match k with
  | O => Some st
  | S k' =>
      match _cr_twiddler fuel i st with
      | Some st' => edges fuel i k' st'
      | None => None
      end
  end.

(** The assignments made to the signal by [p] periods that each end with
    the signal driven low and then high again. *)
Fixpoint toggles (p : nat) : list Z :=
  match p with
  | O => []
  | S p' => 0%Z :: 1%Z :: toggles p'
  end.

(** The value the signal holds: the last one assigned to it. *)
Definition level (st : state) : option Z :=
  last (map Some (_signal st)) None.

End BitDriverRun.

(** ** polled_socket_attachment over a whole connection *)
Module SocketRun.
Import Socket.

Section WithDriver.

Variables T V Cb Ev : Type.
Variables EAGAIN EWOULDBLOCK : Z.
Variable of_bytes : list Byte.byte -> T.

(** The turns that leave the loop: an empty read, or a socket error that is
    not a would-block. *)
Definition ends (r : recv_result) : bool :=
  match r with
  | SocketError e => negb ((e =? EAGAIN) || (e =? EWOULDBLOCK))%Z
  | Data [] => true
  | Data (_ :: _) => false
  end.

(** How such a turn leaves the loop. *)
Definition ending (r : recv_result) : turn :=
  match r with
  | SocketError e => Raise e
  | Data _ => Break
  end.

(** The chunks of data among some turns. *)
Definition chunks (recvs : list recv_result) : list (list Byte.byte) :=
  flat_map (fun r => match r with Data d => [d] | SocketError _ => [] end)
           recvs.

(** [driver.append(data)] for each chunk in turn. *)
Definition enqueue (cs : list (list Byte.byte))
    (st : Driver.state T V Cb Ev) : Driver.state T V Cb Ev :=
  fold_left (fun s d => Driver.append (of_bytes d) None None [] s) cs st.

End WithDriver.
End SocketRun.

(** ** BusDriver: the name of a bus *)
Module BusDriver.

(** [str(x)] for [x] a string or [None]; also ["%s" % x]. *)
Definition py_str (x : option string) : string :=
  match x with
  | Some s => s
  | None => "None"
  end.

(** ["%d" % i] *)
Definition py_decimal (i : Z) : string :=
  NilZero.string_of_int (Z.to_int i).

(** The attribute [name] set by [BusDriver.__init__] from its argument
    [name] and from [kwargs.get("array_idx", None)]. *)
Definition name (name : option string) (array_idx : option Z)
    : option string :=
  match array_idx with
  | None => name
  | Some index => Some (py_str name ++ "_" ++ py_decimal index)%string
  end.

(** [BusDriver.__str__] *)
Definition __str__ (self_name : option string) : string := py_str self_name.

End BusDriver.

(** ** A test bench

    Concrete payloads for closed examples: transactions, callbacks and
    events are numbered, and no keyword arguments are passed
    ([V] is empty). *)
Module Bench.

(** The truth value of a task handle: false once the task has finished. *)
Definition running (pc : Driver.drain_pc nat Empty_set nat nat) : bool :=
  match pc with
  | Driver.Finished _ _ _ _ _ => false
  | _ => true
  end.

Definition bus : Driver.DriverSend nat Empty_set :=
  @bus_driver_send nat Empty_set.

Definition run_bus (sched : list (Driver.action nat Empty_set nat nat))
    : Driver.state nat Empty_set nat nat :=
  Driver.run (DS := bus) running sched Driver.init.

Abbreviation resume := (Driver.Resume nat Empty_set nat nat).
Abbreviation clear_queue := (Driver.Clear nat Empty_set nat nat).
Abbreviation tuple := (@Driver.Entry nat Empty_set nat nat).
Abbreviation send_now := (@Driver.Send nat Empty_set nat nat).
Abbreviation called := (@Driver.ObsDriverSend nat Empty_set nat nat).
Abbreviation event_set := (@Driver.ObsEventSet nat Empty_set nat nat).
Abbreviation called_back := (@Driver.ObsCallback nat Empty_set nat nat).

(** Three appends, the second while the first transaction is in flight. *)
Definition three_appends : list (Driver.action nat Empty_set nat nat) :=
  [resume; Driver.Append 10 None None []; resume;
   Driver.Append 20 (Some 1) (Some 2) []; Driver.Append 30 None None []].

(** Three appends while the drain task sleeps. *)
Definition burst : list (Driver.action nat Empty_set nat nat) :=
  [resume; Driver.Append 10 None None []; Driver.Append 20 (Some 1) None [];
   Driver.Append 30 None (Some 2) []].

(** A queued send and a direct send started before the same clock edge. *)
Definition overlap : list (Driver.action nat Empty_set nat nat) :=
  [resume; Driver.Append 7 None None []; resume; send_now 8 true []].

(** A generator that yields (0, 3) and is then exhausted, given to the
    constructor of ValidatedBusDriver. *)
Definition one_zero_pair : ValidatedBusDriver.state :=
  ValidatedBusDriver.State ValidatedBusDriver.PyNone ValidatedBusDriver.PyNone
    (Some (gen_of_list [(0, 3)]%Z)) [].

End Bench.

(** ** More of the test bench *)
Module Bench2.

(** A bench whose appends may carry keyword arguments. *)
Definition alive (pc : Driver.drain_pc nat nat nat nat) : bool := true.

Definition run_kw (sched : list (Driver.action nat nat nat nat))
    : Driver.state nat nat nat nat :=
  Driver.run (DS := @bus_driver_send nat nat) alive sched Driver.init.

Definition run_base (sched : list (Driver.action nat Empty_set nat nat))
    : Driver.state nat Empty_set nat nat :=
  Driver.run (DS := @base_driver_send nat Empty_set) Bench.running sched
    Driver.init.

(** An append with a keyword argument, then a plain one. *)
Definition with_kwargs : list (Driver.action nat nat nat nat) :=
  [Driver.Resume nat nat nat nat;
   Driver.Append 10 (Some 1) None [("strobe"%string, 1)];
   Driver.Append 20 (Some 2) None []].

(** Two appends on the base class while the drain task sleeps. *)
Definition two_appends : list (Driver.action nat Empty_set nat nat) :=
  [Driver.Resume nat Empty_set nat nat; Driver.Append 10 None None [];
   Driver.Append 20 None None []].

(** [append(10, sync=0)], then a plain append, on a BusDriver. *)
Definition sync_keyword : list (Driver.action nat nat nat nat) :=
  [Driver.Resume nat nat nat nat;
   Driver.Append 10 None None [("sync"%string, 0)];
   Driver.Append 20 None None []].

(** A plain append, then [append(20, sync=0)], on a BusDriver. *)
Definition sync_keyword_second : list (Driver.action nat nat nat nat) :=
  [Driver.Resume nat nat nat nat; Driver.Append 10 None None [];
   Driver.Append 20 None None [("sync"%string, 0)]].

(** A BitDriver started on a generator that yields (2, 1) for ever: the
    task has pulled the first pair and driven the signal high. *)
Definition two_one : BitDriver.state :=
  BitDriver.State [1%Z]
    (Some (Generator (gen_items (gen_cycle [(2, 1)]%Z)) 1))
    [BitDriver.High 1 1] (Some 0).

(** A connection: data, would-block turns, more data, then the peer
    closes and what follows is never read. *)
Definition connection : list Socket.recv_result :=
  [Socket.SocketError 11; Socket.Data [Byte.x01];
   Socket.SocketError 11; Socket.Data [Byte.x02; Byte.x03]].

End Bench2.

(** * Properties of Driver *)
Module DriverFacts.
Import Driver.

Unset Implicit Arguments.

Section Facts.

Variables T V Cb Ev : Type.
Context {DS : DriverSend T V}.
Variable task_bool : drain_pc T V Cb Ev -> bool.

Abbreviation dstate := (state T V Cb Ev).
Abbreviation dobs := (obs T V Cb Ev).
Abbreviation daction := (action T V Cb Ev).
Abbreviation dentry := (entry T V Cb Ev).

(** *** Traces *)

Lemma queued_sends_app (a b : list dobs) :
  queued_sends (a ++ b) = queued_sends a ++ queued_sends b.
Proof.
  induction a as [|[[id|] t s kw|[id|] ev|[id|] cb t] a IH]; simpl; auto.
  now rewrite IH.
Qed.

Lemma queued_syncs_app (a b : list dobs) :
  queued_syncs (a ++ b) = queued_syncs a ++ queued_syncs b.
Proof.
  induction a as [|[[id|] t s kw|[id|] ev|[id|] cb t] a IH]; simpl; auto.
  now rewrite IH.
Qed.

Lemma notified_app (a b : list dobs) :
  notified (a ++ b) = notified a ++ notified b.
Proof.
  induction a as [|[[id|] t s kw|[id|] ev|[id|] cb t] a IH]; simpl; auto;
    now rewrite IH.
Qed.

Lemma sent_app (a b : list dobs) : sent (a ++ b) = sent a ++ sent b.
Proof. unfold sent. now rewrite queued_syncs_app, map_app. Qed.

Lemma queued_sends_notify o (t : T) (cb : option Cb) (ev : option Ev) :
  queued_sends (notify (V := V) o t cb ev) = [].
Proof. destruct cb, ev; reflexivity. Qed.

Lemma queued_syncs_notify o (t : T) (cb : option Cb) (ev : option Ev) :
  queued_syncs (notify (V := V) o t cb ev) = [].
Proof. destruct cb, ev; reflexivity. Qed.

Lemma notified_notify id (t : T) (cb : option Cb) (ev : option Ev) i :
  In i (notified (notify (V := V) (Queued id) t cb ev)) -> i = id.
Proof. destruct cb, ev; simpl; intuition congruence. Qed.

Lemma notified_notify_direct (t : T) (cb : option Cb) (ev : option Ev) :
  notified (notify (V := V) Direct t cb ev) = [].
Proof. destruct cb, ev; reflexivity. Qed.

Lemma run_app (s1 s2 : list daction) (st : dstate) :
  run task_bool (s1 ++ s2) st = run task_bool s2 (run task_bool s1 st).
Proof. apply fold_left_app. Qed.

Lemma run_cons (a : daction) (s : list daction) (st : dstate) :
  run task_bool (a :: s) st = run task_bool s (step task_bool st a).
Proof. reflexivity. Qed.

Lemma appended_app (s1 s2 : list daction) :
  appended (s1 ++ s2) = appended s1 ++ appended s2.
Proof.
  induction s1 as [|[] s1 IH]; simpl; auto. now rewrite IH.
Qed.

Lemma appended_repeat_resume k :
  appended (repeat (Resume T V Cb Ev) k) = [].
Proof. induction k; simpl; auto. Qed.

(** *** The lock fields are nobody's business but the lock functions' *)

Ltac send_queued_field :=
  let q := fresh "q" in
  let IH := fresh "IH" in
  intros q; induction q as [|? q IH]; intros ? ?; simpl;
  [ reflexivity
  | unfold _send, _send_finish; destruct (clashes _); simpl; [reflexivity|];
    destruct (awaits _); simpl; [|reflexivity];
    destruct (result _); simpl; [reflexivity|];
    rewrite IH; reflexivity ].

Lemma send_queued_busy :
  forall (q : list dentry) s (st : dstate),
    busy (send_queued q s st) = busy st.
Proof. send_queued_field. Qed.

Lemma send_queued_busy_event :
  forall (q : list dentry) s (st : dstate),
    busy_event (send_queued q s st) = busy_event st.
Proof. send_queued_field. Qed.

Lemma send_queued_callers :
  forall (q : list dentry) s (st : dstate),
    callers (send_queued q s st) = callers st.
Proof. send_queued_field. Qed.

Lemma send_queued_next_id :
  forall (q : list dentry) s (st : dstate),
    next_id (send_queued q s st) = next_id st.
Proof. send_queued_field. Qed.

Lemma step_lock_frame (st : dstate) (a : daction) :
  busy (step task_bool st a) = busy st /\
  busy_event (step task_bool st a) = busy_event st.
Proof.
  destruct a; simpl; auto.
  - unfold kill. destruct (_thread st) as [pc|]; auto.
    destruct (task_bool pc); auto.
  - unfold _send_thread, _send_finish.
    destruct (_thread st) as [[| |e sync [|n]|x]|]; simpl; auto.
    + now rewrite send_queued_busy, send_queued_busy_event.
    + destruct (_pending st); auto.
      now rewrite send_queued_busy, send_queued_busy_event.
    + destruct (result _); simpl; auto.
      now rewrite send_queued_busy, send_queued_busy_event.
  - unfold send, _send, _send_finish.
    destruct (clashes _); [|destruct (awaits _); [destruct (result _)|]];
      simpl; auto.
Qed.

Lemma run_lock_frame (sched : list daction) (st : dstate) :
  busy (run task_bool sched st) = busy st /\
  busy_event (run task_bool sched st) = busy_event st.
Proof.
  revert st. induction sched as [|a s IH]; intros st; simpl; auto.
  destruct (IH (step task_bool st a)) as (A & B).
  destruct (step_lock_frame st a) as (C & D).
  fold (run task_bool s (step task_bool st a)) in *.
  split; congruence.
Qed.

(** *** First in, first out *)

Lemma plain_cons (e : dentry) (q : list dentry) :
  plain (e :: q) -> clashes (kwargs e) = false /\ plain q.
Proof. intros H. inversion H; subst. auto. Qed.

Lemma plain_app (a b : list dentry) : plain (a ++ b) <-> plain a /\ plain b.
Proof. apply Forall_app. Qed.

Lemma send_queued_plain :
  forall (q : list dentry) s (st : dstate),
    plain q -> plain (_sendQ (send_queued q s st)).
Proof.
  induction q as [|e q IH]; intros s st Hp; simpl.
  - constructor.
  - apply plain_cons in Hp as [_ Hp].
    unfold _send, _send_finish; destruct (clashes _); simpl; auto.
    destruct (awaits _); simpl; auto.
    destruct (result _); simpl; auto.
Qed.

Lemma resume_plain (st : dstate) :
  plain (_sendQ st) -> plain (_sendQ (_send_thread st)).
Proof.
  intros Hp. unfold _send_thread, _send_finish.
  destruct (_thread st) as [[| |e sync [|n]|x]|]; simpl; auto.
  - now apply send_queued_plain.
  - destruct (_pending st); auto. now apply send_queued_plain.
  - destruct (result _); simpl; auto. now apply send_queued_plain.
Qed.

Lemma send_queue (t : T) sync kw (st : dstate) :
  _sendQ (send t sync kw st) = _sendQ st /\
  _thread (send t sync kw st) = _thread st /\
  next_id (send t sync kw st) = next_id st.
Proof.
  unfold send, _send, _send_finish.
  destruct (clashes _); [|destruct (awaits _); [destruct (result _)|]];
    simpl; auto.
Qed.

Lemma step_plain (st : dstate) (a : daction) :
  plain_action a = true ->
  plain (_sendQ st) -> plain (_sendQ (step task_bool st a)).
Proof.
  intros Ha Hp. destruct a; simpl.
  - apply plain_app. split; auto. constructor; [|constructor].
    simpl in *. now destruct (clashes kw).
  - constructor.
  - unfold kill. destruct (_thread st) as [pc|]; auto.
    destruct (task_bool pc); auto.
  - now apply resume_plain.
  - now destruct (send_queue t sync kw st) as (-> & _).
  - exact Hp.
Qed.

Lemma run_plain (sched : list daction) (st : dstate) :
  forallb (@plain_action _ _ _ _) sched = true ->
  plain (_sendQ st) -> plain (_sendQ (run task_bool sched st)).
Proof.
  revert st. induction sched as [|a s IH]; intros st Hk Hp; auto.
  simpl in Hk. apply andb_true_iff in Hk as [Hk1 Hk2].
  rewrite run_cons. apply IH; auto using step_plain.
Qed.

Lemma repeat_resume_plain k :
  forallb (@plain_action T V Cb Ev) (repeat (Resume T V Cb Ev) k) = true.
Proof. induction k; simpl; auto. Qed.

Lemma repeat_resume_keeps k :
  forallb (@keeps_queue T V Cb Ev) (repeat (Resume T V Cb Ev) k) = true.
Proof. induction k; simpl; auto. Qed.

Lemma send_queued_fifo :
  forall (q : list dentry) s (st : dstate),
    plain q ->
    queued_sends (trace (send_queued q s st)) ++
      map (@transaction _ _ _ _) (_sendQ (send_queued q s st)) =
    queued_sends (trace st) ++ map (@transaction _ _ _ _) q.
Proof.
  induction q as [|e q IH]; intros s st Hp; simpl.
  - reflexivity.
  - apply plain_cons in Hp as [He Hp].
    unfold _send, _send_finish; rewrite He; destruct (awaits _); simpl.
    + destruct (result _); simpl.
      * rewrite queued_sends_app. simpl. now rewrite <- app_assoc.
      * rewrite IH by assumption. simpl.
        rewrite !queued_sends_app, queued_sends_notify. simpl.
        now rewrite app_nil_r, <- app_assoc.
    + rewrite queued_sends_app. simpl. now rewrite <- app_assoc.
Qed.

Lemma step_fifo (st : dstate) (a : daction) :
  a <> Clear T V Cb Ev ->
  plain (_sendQ st) ->
  queued_sends (trace (step task_bool st a)) ++
    map (@transaction _ _ _ _) (_sendQ (step task_bool st a)) =
  (queued_sends (trace st) ++ map (@transaction _ _ _ _) (_sendQ st)) ++
    appended [a].
Proof.
  intros Ha Hp. destruct a; simpl; try congruence.
  - now rewrite map_app, app_assoc.
  - rewrite app_nil_r. unfold kill.
    destruct (_thread st) as [pc|]; auto. destruct (task_bool pc); auto.
  - rewrite app_nil_r. unfold _send_thread, _send_finish.
    destruct (_thread st) as [[| |e sync [|n]|x]|]; simpl; auto.
    + now apply send_queued_fifo.
    + destruct (_pending st); auto. now apply send_queued_fifo.
    + destruct (result _); simpl; auto.
      rewrite send_queued_fifo by assumption. simpl.
      now rewrite queued_sends_app, queued_sends_notify, app_nil_r.
  - rewrite app_nil_r. unfold send, _send, _send_finish.
    destruct (clashes _); [|destruct (awaits _); [destruct (result _)|]];
      simpl; rewrite ?queued_sends_app; simpl; now rewrite ?app_nil_r.
  - now rewrite app_nil_r.
Qed.

Lemma run_fifo (sched : list daction) (st : dstate) :
  forallb (@keeps_queue _ _ _ _) sched = true ->
  forallb (@plain_action _ _ _ _) sched = true ->
  plain (_sendQ st) ->
  queued_sends (trace (run task_bool sched st)) ++
    map (@transaction _ _ _ _) (_sendQ (run task_bool sched st)) =
  (queued_sends (trace st) ++ map (@transaction _ _ _ _) (_sendQ st)) ++
    appended sched.
Proof.
  revert st. induction sched as [|a s IH]; intros st Hk Hpl Hp.
  - simpl. now rewrite app_nil_r.
  - simpl in Hk, Hpl. apply andb_true_iff in Hk as [Ha Hs].
    apply andb_true_iff in Hpl as [Hpa Hps].
    rewrite run_cons, IH by auto using step_plain.
    rewrite step_fifo by (auto; intros ->; discriminate).
    rewrite <- app_assoc. f_equal.
    change (a :: s) with ([a] ++ s). now rewrite appended_app.
Qed.

(** *** The drain task gets through the queue *)

Lemma awaits_lt_cost (e : dentry) (s : bool) :
  awaits (_driver_send (transaction e) s (kwargs e)) < cost e.
Proof. unfold cost. destruct s; lia. Qed.

Lemma queue_cost_cons (e : dentry) (q : list dentry) :
  queue_cost (e :: q) = cost e + queue_cost q.
Proof. reflexivity. Qed.

Lemma send_queued_todo (R : always_returns) :
  forall (q : list dentry) s (st : dstate),
    plain q ->
    todo (send_queued q s st) <= queue_cost q /\ awake (send_queued q s st).
Proof.
  induction q as [|e q IH]; intros s st Hp.
  - simpl. unfold todo, awake. simpl. auto.
  - apply plain_cons in Hp as [He Hp].
    simpl. unfold _send, _send_finish; rewrite He;
      destruct (awaits _) as [|n] eqn:E.
    + rewrite R.
      match goal with
      | |- context [send_queued q true ?st1] =>
          destruct (IH true st1 Hp) as [A B]
      end.
      split; [|exact B]. rewrite queue_cost_cons. lia.
    + unfold todo, awake. simpl. split; [|exact I].
      pose proof (awaits_lt_cost e (negb s)) as Hc. rewrite E in Hc.
      rewrite queue_cost_cons. lia.
Qed.

Lemma resume_todo (R : always_returns) (st : dstate) :
  plain (_sendQ st) ->
  awake st ->
  awake (_send_thread st) /\ todo (_send_thread st) <= pred (todo st).
Proof.
  intros Hp.
  unfold awake at 1, _send_thread, _send_finish, todo at 2.
  destruct (_thread st) as [[| |e sync [|n]|x]|] eqn:Hth; try tauto.
  - intros _.
    destruct (send_queued_todo R (_sendQ st) false st Hp). simpl. auto.
  - intros Hz. destruct (_pending st).
    + destruct (send_queued_todo R (_sendQ st) false st Hp) as [A B].
      split; [exact B|].
      destruct (_sendQ st); cbn [pred];
        [change (queue_cost (@nil dentry)) with 0 in A|]; lia.
    + rewrite (Hz eq_refl). unfold awake, todo. rewrite Hth.
      rewrite (Hz eq_refl). auto.
  - intros _. rewrite R.
    match goal with
    | |- context [send_queued ?q true ?st1] =>
        destruct (send_queued_todo R q true st1 Hp) as [A B]
    end.
    split; [exact B|]. simpl in A |- *. lia.
  - intros _. unfold awake, todo. simpl. split; [exact I|lia].
Qed.

Lemma todo_zero (st : dstate) : awake st -> todo st = 0 -> drained st.
Proof.
  unfold awake, todo, drained.
  destruct (_thread st) as [[| |e sync n|x]|]; try tauto; try discriminate.
  destruct (_sendQ st); auto; discriminate.
Qed.

Lemma resume_drains (R : always_returns) :
  forall n (st : dstate),
    plain (_sendQ st) -> awake st -> todo st <= n ->
    drained (run task_bool (repeat (Resume T V Cb Ev) n) st).
Proof.
  induction n as [|n IH]; intros st Hp Ha Hn.
  - simpl. apply todo_zero; [assumption|lia].
  - simpl repeat. rewrite run_cons. simpl step.
    destruct (resume_todo R st Hp Ha) as [A B].
    apply IH; [now apply resume_plain|assumption|lia].
Qed.

Lemma step_awake (R : always_returns) (st : dstate) (a : daction) :
  keeps_task a = true -> plain (_sendQ st) ->
  awake st -> awake (step task_bool st a).
Proof.
  destruct a; simpl; try discriminate; intros _ Hp Ha.
  - unfold awake in *. simpl.
    destruct (_thread st) as [[| |e sync n|x]|]; auto. discriminate.
  - unfold awake in *. simpl.
    destruct (_thread st) as [[| |e sync n|x]|]; auto.
  - now destruct (resume_todo R st Hp Ha).
  - unfold send, _send, _send_finish.
    destruct (clashes _); [|destruct (awaits _); [destruct (result _)|]];
      exact Ha.
  - exact Ha.
Qed.

Lemma run_awake (R : always_returns) (sched : list daction) (st : dstate) :
  forallb (@keeps_task _ _ _ _) sched = true ->
  forallb (@plain_action _ _ _ _) sched = true ->
  plain (_sendQ st) ->
  awake st -> awake (run task_bool sched st).
Proof.
  revert st. induction sched as [|a s IH]; intros st Hk Hpl Hp Ha; auto.
  simpl in Hk, Hpl. apply andb_true_iff in Hk as [Hk1 Hk2].
  apply andb_true_iff in Hpl as [Hp1 Hp2].
  rewrite run_cons. apply IH; auto using step_awake, step_plain.
Qed.

Lemma keeps_queue_task (sched : list daction) :
  forallb (@keeps_queue _ _ _ _) sched = true ->
  forallb (@keeps_task _ _ _ _) sched = true.
Proof.
  induction sched as [|a s IH]; simpl; auto.
  intros H. apply andb_true_iff in H as [H1 H2].
  rewrite (IH H2). now destruct a.
Qed.

Lemma init_plain : plain (_sendQ (@init T V Cb Ev)).
Proof. constructor. Qed.


(** *** Only the first send of a batch synchronises *)

Lemma send_queued_syncs_true :
  forall (q : list dentry) (st : dstate),
    plain q ->
    queued_syncs (trace (send_queued q true st)) ++
      unsynced (_sendQ (send_queued q true st)) =
    queued_syncs (trace st) ++ unsynced q.
Proof.
  induction q as [|e q IH]; intros st Hp; simpl.
  - reflexivity.
  - apply plain_cons in Hp as [He Hp].
    unfold _send, _send_finish; rewrite He; destruct (awaits _); simpl.
    + destruct (result _); simpl.
      * rewrite queued_syncs_app. simpl. now rewrite <- app_assoc.
      * rewrite IH by assumption. simpl.
        rewrite !queued_syncs_app, queued_syncs_notify. simpl.
        now rewrite app_nil_r, <- app_assoc.
    + rewrite queued_syncs_app. simpl. now rewrite <- app_assoc.
Qed.

Lemma send_queued_syncs_first (e : dentry) (q : list dentry) (st : dstate) :
  plain (e :: q) ->
  queued_syncs (trace (send_queued (e :: q) false st)) ++
    unsynced (_sendQ (send_queued (e :: q) false st)) =
  queued_syncs (trace st) ++ (eid e, true) :: unsynced q.
Proof.
  intros Hp. apply plain_cons in Hp as [He Hp].
  simpl. unfold _send, _send_finish; rewrite He; destruct (awaits _); simpl.
  - destruct (result _); simpl.
    + rewrite queued_syncs_app. simpl. now rewrite <- app_assoc.
    + rewrite send_queued_syncs_true by assumption. simpl.
      rewrite !queued_syncs_app, queued_syncs_notify. simpl.
      now rewrite app_nil_r, <- app_assoc.
  - rewrite queued_syncs_app. simpl. now rewrite <- app_assoc.
Qed.

Lemma send_queued_in_batch (R : always_returns) :
  forall (q : list dentry) s (st : dstate),
    plain q -> in_batch (send_queued q s st).
Proof.
  induction q as [|e q IH]; intros s st Hp; simpl.
  - right. split; reflexivity.
  - apply plain_cons in Hp as [He Hp].
    unfold _send, _send_finish; rewrite He; destruct (awaits _).
    + rewrite R. now apply IH.
    + left. reflexivity.
Qed.

Lemma resume_in_batch (R : always_returns) (st : dstate) :
  plain (_sendQ st) ->
  in_batch st ->
  in_batch (_send_thread st) /\
  queued_syncs (trace (_send_thread st)) ++ unsynced (_sendQ (_send_thread st)) =
  queued_syncs (trace st) ++ unsynced (_sendQ st).
Proof.
  intros Hp.
  unfold in_batch at 1, in_send, drained, _send_thread, _send_finish.
  destruct (_thread st) as [[| |e sync [|n]|x]|] eqn:Hth;
    intros [H|[Hq H]]; try discriminate.
  - rewrite Hq. destruct (_pending st).
    + split; [apply send_queued_in_batch; auto; constructor|reflexivity].
    + split; [|now rewrite Hq]. right. split; assumption.
  - rewrite R. split; [apply send_queued_in_batch; assumption|].
    rewrite send_queued_syncs_true by assumption. simpl.
    now rewrite queued_syncs_app, queued_syncs_notify, app_nil_r.
  - split; [left; reflexivity|reflexivity].
Qed.

Lemma resumes_in_batch (R : always_returns) :
  forall n (st : dstate),
    plain (_sendQ st) ->
    in_batch st ->
    let st' := run task_bool (repeat (Resume T V Cb Ev) n) st in
    queued_syncs (trace st') ++ unsynced (_sendQ st') =
    queued_syncs (trace st) ++ unsynced (_sendQ st).
Proof.
  induction n as [|n IH]; intros st Hp Hb; simpl; auto.
  destruct (resume_in_batch R st Hp Hb) as [A B].
  fold (run task_bool (repeat (Resume T V Cb Ev) n) (_send_thread st)).
  now rewrite (IH _ (resume_plain st Hp) A).
Qed.

Lemma send_queued_no_lost_wakeup :
  forall (q : list dentry) s (st : dstate),
    _thread (send_queued q s st) = Some (AtPendingWait T V Cb Ev) ->
    _sendQ (send_queued q s st) = [].
Proof.
  induction q as [|e q IH]; intros s st; simpl; auto.
  unfold _send, _send_finish; destruct (clashes _); simpl; try discriminate.
  destruct (awaits _); simpl; try discriminate.
  destruct (result _); simpl; try discriminate. apply IH.
Qed.

Lemma step_no_lost_wakeup (st : dstate) (a : daction) :
  no_lost_wakeup st -> no_lost_wakeup (step task_bool st a).
Proof.
  unfold no_lost_wakeup. destruct a; simpl; auto.
  - intros _ _ H. discriminate H.
  - intros Hinv. unfold kill.
    destruct (_thread st) as [pc|] eqn:Hth; [destruct (task_bool pc)|];
      simpl; rewrite ?Hth; auto.
    intros H. discriminate H.
  - intros Hinv. unfold _send_thread, _send_finish.
    destruct (_thread st) as [[| |e sync [|n]|x]|] eqn:Hth; simpl;
      rewrite ?Hth; auto; try (intros H; discriminate H).
    + intros H _. eapply send_queued_no_lost_wakeup; eassumption.
    + destruct (_pending st) eqn:Hp; rewrite ?Hth; auto.
      intros H _. eapply send_queued_no_lost_wakeup; eassumption.
    + destruct (result _); simpl; try (intros H; discriminate H).
      intros H _. eapply send_queued_no_lost_wakeup; eassumption.
  - unfold send, _send, _send_finish.
    destruct (clashes _); [|destruct (awaits _); [destruct (result _)|]];
      simpl; auto.
Qed.

Lemma run_no_lost_wakeup (sched : list daction) (st : dstate) :
  no_lost_wakeup st -> no_lost_wakeup (run task_bool sched st).
Proof.
  revert st. induction sched as [|a s IH]; intros st H; auto.
  rewrite run_cons. apply IH, step_no_lost_wakeup, H.
Qed.

Lemma init_no_lost_wakeup : no_lost_wakeup (@init T V Cb Ev).
Proof. unfold no_lost_wakeup. discriminate. Qed.

(** A task woken with a non-empty queue starts a batch with the head. *)
Lemma wake_on_queue (st : dstate) (e : dentry) (q : list dentry) :
  no_lost_wakeup st -> parked st = true -> _sendQ st = e :: q ->
  _send_thread st = send_queued (e :: q) false st /\ awake st.
Proof.
  unfold no_lost_wakeup, parked, _send_thread, awake.
  intros Hn Hp Hq.
  destruct (_thread st) as [[| |e' sync n|x]|]; try discriminate.
  - now rewrite Hq.
  - destruct (_pending st).
    + rewrite Hq. split; [reflexivity|discriminate].
    + rewrite Hn in Hq by reflexivity. discriminate.
Qed.


Lemma send_queued_true_adds :
  forall (q : list dentry) (st : dstate),
    exists l, queued_syncs (trace (send_queued q true st)) =
              queued_syncs (trace st) ++ map (fun i => (i, false)) l.
Proof.
  induction q as [|e q IH]; intros st; simpl.
  - exists []. now rewrite app_nil_r.
  - unfold _send, _send_finish; destruct (clashes _); simpl;
      [exists []; now rewrite app_nil_r|].
    destruct (awaits _); simpl.
    + destruct (result _); simpl.
      * exists [eid e]. now rewrite queued_syncs_app.
      * match goal with
        | |- context [send_queued q true ?st1] => destruct (IH st1) as [l E]
        end.
        exists (eid e :: l). rewrite E. simpl.
        rewrite !queued_syncs_app, queued_syncs_notify. simpl.
        now rewrite app_nil_r, <- app_assoc.
    + exists [eid e]. now rewrite queued_syncs_app.
Qed.

Lemma step_in_send_adds (st : dstate) (a : daction) :
  in_send st = true ->
  exists l, queued_syncs (trace (step task_bool st a)) =
            queued_syncs (trace st) ++ map (fun i => (i, false)) l.
Proof.
  intros Hs.
  assert (Z : exists l : list nat, queued_syncs (trace st) =
            queued_syncs (trace st) ++ map (fun i => (i, false)) l)
    by (exists []; now rewrite app_nil_r).
  destruct a; simpl; auto.
  - unfold kill. destruct (_thread st) as [pc|]; auto.
    destruct (task_bool pc); auto.
  - unfold in_send in Hs. unfold _send_thread, _send_finish.
    destruct (_thread st) as [[| |e sync [|n]|x]|]; try discriminate; auto.
    destruct (result _); auto.
    match goal with
    | |- context [send_queued ?q true ?st1] =>
        destruct (send_queued_true_adds q st1) as [l E]
    end.
    exists l. rewrite E. simpl.
    now rewrite queued_syncs_app, queued_syncs_notify, app_nil_r.
  - unfold send, _send, _send_finish. exists [].
    destruct (clashes _); [|destruct (awaits _); [destruct (result _)|]];
      simpl; rewrite ?queued_syncs_app; simpl; now rewrite ?app_nil_r.
Qed.

Lemma run_in_send_adds :
  forall (sched : list daction) (st : dstate),
    stays_in_send task_bool sched st = true ->
    exists l, queued_syncs (trace (run task_bool sched st)) =
              queued_syncs (trace st) ++ map (fun i => (i, false)) l.
Proof.
  induction sched as [|a s IH]; intros st H.
  - exists []. simpl. now rewrite app_nil_r.
  - simpl in H. apply andb_true_iff in H as [H1 H2].
    destruct (IH _ H2) as [l2 E2].
    destruct (step_in_send_adds st a H1) as [l1 E1].
    exists (l1 ++ l2). rewrite run_cons, E2, E1.
    now rewrite map_app, app_assoc.
Qed.

(** X19: a batch that grows while it is drained.  The parked task is
    woken on a non-empty queue whose head carries no keyword argument named
    like a parameter of [_send], and then any actions follow ([append]
    among them) that find the task inside [_driver_send].  The head of the
    queue is sent with [sync = true] and every later send with
    [sync = false]. *)
Theorem burst_syncs_first_only (sched sched2 : list daction)
    (e : dentry) (q : list dentry) :
  parked (run task_bool sched init) = true ->
  _sendQ (run task_bool sched init) = e :: q ->
  clashes (kwargs e) = false ->
  stays_in_send task_bool sched2
    (_send_thread (run task_bool sched init)) = true ->
  exists l,
    queued_syncs
      (trace (run task_bool (sched ++ Resume T V Cb Ev :: sched2) init)) =
    queued_syncs (trace (run task_bool sched init)) ++
      (eid e, true) :: map (fun i => (i, false)) l.
Proof.
  intros Hp Hq He Hs. set (st := run task_bool sched init) in *.
  assert (Hn : no_lost_wakeup st)
    by apply run_no_lost_wakeup, init_no_lost_wakeup.
  destruct (wake_on_queue st e q Hn Hp Hq) as [Hw _].
  destruct (run_in_send_adds sched2 _ Hs) as [l2 E2].
  rewrite run_app, run_cons. fold st. simpl step. rewrite E2, Hw.
  simpl. unfold _send, _send_finish; rewrite He; destruct (awaits _); simpl.
  - destruct (result _); simpl.
    + exists l2. rewrite queued_syncs_app. simpl. now rewrite <- app_assoc.
    + match goal with
      | |- context [send_queued q true ?st1] =>
          destruct (send_queued_true_adds q st1) as [l1 E1]
      end.
      exists (l1 ++ l2). rewrite E1. simpl.
      rewrite !queued_syncs_app, queued_syncs_notify. simpl.
      rewrite app_nil_r, map_app, <- !app_assoc. reflexivity.
  - exists l2. rewrite queued_syncs_app. simpl. now rewrite <- app_assoc.
Qed.

(** *** What a resumption of the drain task takes from the queue *)

Lemma accepted_cons (e : dentry) (q : list dentry) :
  accepted (e :: q) =
  if clashes (kwargs e) then accepted q else e :: accepted q.
Proof. unfold accepted. simpl. now destruct (clashes (kwargs e)). Qed.

Lemma accepted_in (q : list dentry) i :
  In i (ids (accepted q)) -> In i (ids q).
Proof.
  unfold ids, accepted. rewrite !in_map_iff.
  intros (e & E & H). apply filter_In in H as [H _]. eauto.
Qed.

Lemma accepted_plain (q : list dentry) : plain q -> accepted q = q.
Proof.
  induction q as [|e q IH]; intros Hp; auto.
  apply plain_cons in Hp as [He Hp]. now rewrite accepted_cons, He, IH.
Qed.

Lemma send_queued_split :
  forall (q : list dentry) s (st : dstate),
    let st' := send_queued q s st in
    exists done,
      q = done ++ _sendQ st' /\
      sent (trace st') = sent (trace st) ++ ids (accepted done) /\
      (forall i, In i (notified (trace st')) ->
                 In i (notified (trace st)) \/ In i (ids (accepted done))) /\
      (forall i, held st' = Some i -> In i (ids (accepted done))).
Proof.
  induction q as [|e q IH]; intros s st; simpl.
  - exists []. simpl. rewrite app_nil_r. unfold held. simpl.
    repeat split; auto. discriminate.
  - unfold _send, _send_finish; destruct (clashes _) eqn:Hc; simpl.
    { exists [e]. rewrite accepted_cons, Hc. unfold held. simpl.
      rewrite app_nil_r. repeat split; auto. discriminate. }
    destruct (awaits _); simpl.
    + destruct (result _); simpl.
      * exists [e]. rewrite accepted_cons, Hc. unfold held. simpl.
        rewrite sent_app, notified_app. simpl.
        rewrite app_nil_r. repeat split; auto. discriminate.
      * match goal with
        | |- context [send_queued q true ?st1] =>
            destruct (IH true st1) as (done & E & Hs & Hn & Hh)
        end.
        exists (e :: done). rewrite accepted_cons, Hc. simpl.
        split; [now f_equal|].
        split; [|split].
        -- rewrite Hs. simpl. rewrite !sent_app. unfold sent at 3. 
           rewrite queued_syncs_notify. simpl.
           now rewrite app_nil_r, <- app_assoc.
        -- intros i Hi. destruct (Hn i Hi) as [H|H]; auto.
           simpl in H. rewrite !notified_app in H. simpl in H.
           rewrite app_nil_r in H.
           apply in_app_or in H as [H|H]; auto.
           apply notified_notify in H. auto.
        -- intros i Hi. right. now apply Hh.
    + exists [e]. rewrite accepted_cons, Hc. unfold held. simpl.
      rewrite sent_app, notified_app. simpl.
      rewrite app_nil_r. repeat split; auto.
      intros i Hi. left. congruence.
Qed.

Lemma resume_split (st : dstate) :
  let st' := _send_thread st in
  exists done,
    _sendQ st = done ++ _sendQ st' /\
    sent (trace st') = sent (trace st) ++ ids (accepted done) /\
    (forall i, In i (notified (trace st')) ->
               In i (notified (trace st)) \/ held st = Some i \/
               In i (ids (accepted done))) /\
    (forall i, held st' = Some i ->
               held st = Some i \/ In i (ids (accepted done))) /\
    next_id st' = next_id st.
Proof.
  assert (Z : exists done : list dentry,
    _sendQ st = done ++ _sendQ st /\
    sent (trace st) = sent (trace st) ++ ids (accepted done) /\
    (forall i, In i (notified (trace st)) ->
               In i (notified (trace st)) \/ held st = Some i \/
               In i (ids (accepted done))) /\
    (forall i, held st = Some i ->
               held st = Some i \/ In i (ids (accepted done))) /\
    next_id st = next_id st).
  { exists []. simpl. rewrite app_nil_r. repeat split; auto. }
  unfold _send_thread, _send_finish. simpl.
  destruct (_thread st) as [[| |e sync [|n]|x]|] eqn:Hth; auto.
  - destruct (send_queued_split (_sendQ st) false st)
      as (done & E & Hs & Hn & Hh).
    exists done. rewrite send_queued_next_id.
    repeat split; auto. intros i Hi. destruct (Hn i Hi); auto.
  - destruct (_pending st); auto.
    destruct (send_queued_split (_sendQ st) false st)
      as (done & E & Hs & Hn & Hh).
    exists done. rewrite send_queued_next_id.
    repeat split; auto. intros i Hi. destruct (Hn i Hi); auto.
  - destruct (result _).
    + exists []. unfold held. simpl. rewrite !app_nil_r.
      repeat split; auto. discriminate.
    + match goal with
      | |- context [send_queued ?q true ?st1] =>
          destruct (send_queued_split q true st1) as (done & E & Hs & Hn & Hh)
      end.
      exists done. rewrite send_queued_next_id. simpl in *.
      split; [exact E|]. split; [|split; [|split]]; auto.
      * rewrite Hs, sent_app. unfold sent at 2.
        now rewrite queued_syncs_notify, app_nil_r.
      * intros i Hi. destruct (Hn i Hi) as [H|H]; auto.
        rewrite notified_app in H. apply in_app_or in H as [H|H]; auto.
        apply notified_notify in H. right. left. unfold held.
        rewrite Hth. now subst.
  - exists []. unfold held. simpl. rewrite Hth, !app_nil_r.
    repeat split; auto.
Qed.

(** *** Tuples dropped by clear are never heard of again *)

Lemma NoDup_app_disjoint (l1 l2 : list nat) :
  NoDup (l1 ++ l2) -> forall a, In a l1 -> ~ In a l2.
Proof.
  induction l1 as [|x l1 IH]; simpl; intros Hnd a Hin; [contradiction|].
  inversion Hnd as [|y l Hx Hnd']; subst.
  destruct Hin as [->|Hin]; [|now apply IH].
  intros H. apply Hx, in_or_app. now right.
Qed.

Lemma ids_app (a b : list dentry) : ids (a ++ b) = ids a ++ ids b.
Proof. apply map_app. Qed.

Lemma send_trace (t : T) sync kw (st : dstate) :
  sent (trace (send t sync kw st)) = sent (trace st) /\
  notified (trace (send t sync kw st)) = notified (trace st) /\
  _sendQ (send t sync kw st) = _sendQ st /\
  _thread (send t sync kw st) = _thread st /\
  next_id (send t sync kw st) = next_id st.
Proof.
  unfold send, _send, _send_finish.
  destruct (clashes _); [|destruct (awaits _); [destruct (result _)|]];
    simpl; rewrite ?sent_app, ?notified_app; simpl; rewrite ?app_nil_r; auto.
Qed.

Lemma kill_held (st : dstate) i :
  held (kill task_bool st) = Some i -> held st = Some i.
Proof.
  unfold kill. destruct (_thread st) as [pc|] eqn:E; auto.
  destruct (task_bool pc); auto. discriminate.
Qed.

Lemma kill_frame (st : dstate) :
  _sendQ (kill task_bool st) = _sendQ st /\
  trace (kill task_bool st) = trace st /\
  next_id (kill task_bool st) = next_id st.
Proof.
  unfold kill. destruct (_thread st) as [pc|]; auto.
  destruct (task_bool pc); auto.
Qed.

Lemma step_untouched (i : nat) (st : dstate) (a : daction) :
  untouched i st -> untouched i (step task_bool st a).
Proof.
  unfold untouched. intros (Hlt & Hq & Hh & Hs & Hn).
  destruct a; simpl.
  - rewrite ids_app. simpl. repeat split; auto.
    intros H. apply in_app_or in H as [H|[H|[]]]; [auto|lia].
  - repeat split; auto.
  - destruct (kill_frame st) as (E1 & E2 & E3). rewrite E1, E2, E3.
    repeat split; auto. intros H. now apply Hh, kill_held.
  - destruct (resume_split st) as (done & E & Es & En & Eh & Ei).
    simpl in *. rewrite Ei, Es.
    assert (Hd : ~ In i (ids (accepted done))).
    { intros H. apply accepted_in in H.
      apply Hq. rewrite E, ids_app. apply in_or_app. auto. }
    repeat split; auto.
    + intros H. apply Hq. rewrite E, ids_app. apply in_or_app. auto.
    + intros H. destruct (Eh i H); auto.
    + intros H. apply in_app_or in H as [H|H]; auto.
    + intros H. destruct (En i H) as [H'|[H'|H']]; auto.
  - destruct (send_trace t sync kw st) as (E1 & E2 & E3 & E4 & E5).
    unfold held. rewrite E1, E2, E3, E4, E5. repeat split; auto.
  - repeat split; auto.
Qed.

Lemma run_untouched (i : nat) (sched : list daction) (st : dstate) :
  untouched i st -> untouched i (run task_bool sched st).
Proof.
  revert st. induction sched as [|a s IH]; intros st H; auto.
  rewrite run_cons. apply IH, step_untouched, H.
Qed.

Lemma step_queue_fresh (st : dstate) (a : daction) :
  queue_fresh st -> queue_fresh (step task_bool st a).
Proof.
  unfold queue_fresh. intros (Hnd & Hlt & Hq).
  destruct a; simpl.
  - rewrite ids_app. simpl. split; [|split].
    + apply NoDup_app; repeat split; auto.
      * constructor; [intros []|constructor].
      * intros i Hi [Hj|[]]. subst i.
        specialize (Hlt (next_id st) (or_introl Hi)). lia.
    + intros i [H|H].
      * apply in_app_or in H as [H|[H|[]]]; [|lia].
        specialize (Hlt i (or_introl H)). lia.
      * specialize (Hlt i (or_intror H)). lia.
    + intros i H. apply in_app_or in H as [H|[H|[]]]; auto.
      subst i. repeat split; intros H.
      * specialize (Hlt (next_id st) (or_intror (or_introl H))). lia.
      * specialize (Hlt (next_id st)
                      (or_intror (or_intror (or_introl H)))). lia.
      * specialize (Hlt (next_id st)
                      (or_intror (or_intror (or_intror H)))). lia.
  - split; [constructor|]. split; [|intros i []].
    intros i [[]|H]. apply Hlt. auto.
  - destruct (kill_frame st) as (E1 & E2 & E3). rewrite E1, E2, E3.
    split; [auto|]. split.
    + intros i [H|[H|[H|H]]]; apply Hlt; auto.
      apply kill_held in H. auto.
    + intros i H. destruct (Hq i H) as (A & B & C).
      repeat split; auto. intros H'. now apply C, kill_held.
  - destruct (resume_split st) as (done & E & Es & En & Eh & Ei).
    simpl in *. rewrite Ei, Es.
    assert (Hin : forall i, In i (ids (_sendQ (_send_thread st))) ->
                            In i (ids (_sendQ st)))
      by (intros i H; rewrite E, ids_app; apply in_or_app; auto).
    assert (Hdn : forall i, In i (ids (accepted done)) ->
                            In i (ids (_sendQ st)))
      by (intros i H; apply accepted_in in H; rewrite E, ids_app;
          apply in_or_app; auto).
    rewrite E, ids_app in Hnd.
    split; [|split].
    + apply NoDup_app_remove_l in Hnd. exact Hnd.
    + intros i [H|[H|[H|H]]].
      * apply Hlt. auto.
      * apply in_app_or in H as [H|H]; apply Hlt; auto.
      * destruct (En i H) as [H'|[H'|H']]; apply Hlt; auto.
      * destruct (Eh i H) as [H'|H']; apply Hlt; auto.
    + intros i H.
      assert (Hd : ~ In i (ids (accepted done))).
      { intros H'. apply accepted_in in H'.
        exact (NoDup_app_disjoint _ _ Hnd i H' H). }
      destruct (Hq i (Hin i H)) as (A & B & C).
      repeat split.
      * intros H'. apply in_app_or in H' as [H'|H']; auto.
      * intros H'. destruct (En i H') as [H''|[H''|H'']]; auto.
      * intros H'. destruct (Eh i H') as [H''|H'']; auto.
  - destruct (send_trace t sync kw st) as (E1 & E2 & E3 & E4 & E5).
    unfold held in *. rewrite E1, E2, E3, E4, E5. auto.
  - auto.
Qed.

Lemma run_queue_fresh (sched : list daction) (st : dstate) :
  queue_fresh st -> queue_fresh (run task_bool sched st).
Proof.
  revert st. induction sched as [|a s IH]; intros st H; auto.
  rewrite run_cons. apply IH, step_queue_fresh, H.
Qed.

Lemma init_queue_fresh : queue_fresh (@init T V Cb Ev).
Proof.
  unfold queue_fresh, held. simpl. split; [constructor|].
  split; [|intros i []]. intros i [[]|[[]|[[]|H]]]. discriminate.
Qed.

(** C3: a tuple that is on the queue when [clear] is called is never
    notified afterwards, whatever happens next ([append], [clear], [kill],
    [send], resumptions): its event is not set, its callback is not
    called, and it is not handed to [_driver_send] either.  Tuples are told
    apart by identity, so a callback or event object shared with another
    transaction may still be used for that other transaction. *)
Theorem cleared_never_notified (sched1 sched2 : list daction) (e : dentry) :
  In e (_sendQ (run task_bool sched1 init)) ->
  let final :=
    run task_bool (sched1 ++ Clear T V Cb Ev :: sched2) init in
  ~ In (eid e) (notified (trace final)) /\
  ~ In (eid e) (sent (trace final)).
Proof.
  intros Hin final. subst final. rewrite run_app, run_cons.
  set (st := run task_bool sched1 init) in *.
  assert (Hf : queue_fresh st) by apply run_queue_fresh, init_queue_fresh.
  destruct Hf as (_ & Hlt & Hq).
  assert (Hi : In (eid e) (ids (_sendQ st))) by (apply in_map; exact Hin).
  destruct (Hq _ Hi) as (A & B & C).
  assert (U : untouched (eid e) (step task_bool st (Clear T V Cb Ev))).
  { unfold untouched. simpl. repeat split; auto. }
  apply (run_untouched _ sched2) in U.
  destruct U as (_ & _ & _ & U1 & U2). auto.
Qed.

(** *** The lock *)

(** C6 (as amended): the busy flag and the busy event are changed by
    [_acquire_lock] and [_release_lock] only.  No operation of the driver
    calls them: whatever the schedule of [append], [clear], [kill], [send]
    and resumptions, in whatever state of the queue and of the sends in
    flight, [busy] is still false and the event still unset.  Taking the
    lock when it is free sets [busy] and clears the event, taking it when
    it is held parks the caller, and releasing it clears [busy] and sets
    the event. *)
Theorem lock_left_to_subclasses (sched : list daction) (st : dstate) :
  busy (run task_bool sched init) = false /\
  busy_event (run task_bool sched init) = false /\
  (busy st = false ->
     exists st', _acquire_lock st = Some st' /\
                 busy st' = true /\ busy_event st' = false) /\
  (busy st = true -> _acquire_lock st = None) /\
  busy (_release_lock st) = false /\
  busy_event (_release_lock st) = true.
Proof.
  destruct (run_lock_frame sched init) as [A B].
  repeat split; auto.
  - intros H. unfold _acquire_lock. rewrite H. eexists. split; eauto.
  - intros H. unfold _acquire_lock. now rewrite H.
Qed.

(** *** kill *)

Lemma kill_kill (st : dstate) :
  kill task_bool (kill task_bool st) = kill task_bool st.
Proof.
  unfold kill.
  destruct (_thread st) as [pc|] eqn:E; [destruct (task_bool pc) eqn:B|];
    simpl; rewrite ?E, ?B; reflexivity.
Qed.

(** C10 (as amended): [kill] is idempotent on every driver: after one
    call, any number of further calls returns the very same state.  The
    first call drops the task and sets the handle to [None] when the
    handle is set and true, leaving every other field as it was.  When the
    handle is set but false, as is the handle of a task that has finished,
    or when it is [None], [kill] changes nothing: a handle that is set
    stays set.  [kill] has no error path. *)
Theorem kill_idempotent (st : dstate) (n : nat) :
  Nat.iter n (kill task_bool) (kill task_bool st) = kill task_bool st /\
  (forall pc, _thread st = Some pc -> task_bool pc = true ->
     kill task_bool st = set_thread None st /\
     _thread (kill task_bool st) = None) /\
  (forall pc, _thread st = Some pc -> task_bool pc = false ->
     kill task_bool st = st /\ _thread (kill task_bool st) = Some pc) /\
  (_thread st = None -> kill task_bool st = st).
Proof.
  split; [|split; [|split]].
  - induction n as [|n IH]; simpl; auto. now rewrite IH, kill_kill.
  - intros pc Hth Hb.
    assert (E : kill task_bool st = set_thread None st)
      by (unfold kill; now rewrite Hth, Hb).
    split; [exact E|now rewrite E].
  - intros pc Hth Hb.
    assert (E : kill task_bool st = st) by (unfold kill; now rewrite Hth, Hb).
    split; [exact E|now rewrite E].
  - intros Hth. unfold kill. now rewrite Hth.
Qed.

(** * Further properties of Driver *)

(** *** No lost wake-up *)

(** X1: in every state a schedule can reach, if the drain task is parked
    on [_pending.wait()] and the pending flag is clear, then the queue is
    empty: an [append] is never left without a wake-up. *)
Theorem never_asleep_on_work (sched : list daction) :
  _thread (run task_bool sched init) = Some (AtPendingWait T V Cb Ev) ->
  _pending (run task_bool sched init) = false ->
  _sendQ (run task_bool sched init) = [].
Proof.
  apply (run_no_lost_wakeup sched init), init_no_lost_wakeup.
Qed.

(** *** At most once *)

Lemma NoDup_accepted (done : list dentry) :
  forall a b : list nat,
    NoDup (a ++ ids done ++ b) -> NoDup (a ++ ids (accepted done) ++ b).
Proof.
  induction done as [|e done IH]; intros a b H; auto.
  rewrite accepted_cons. simpl in H. destruct (clashes (kwargs e)).
  - apply IH. now apply NoDup_remove_1 in H.
  - simpl. change (a ++ eid e :: ids (accepted done) ++ b)
      with (a ++ [eid e] ++ ids (accepted done) ++ b).
    rewrite app_assoc. apply IH. now rewrite <- app_assoc.
Qed.

Lemma step_tidy (st : dstate) (a : daction) :
  tidy st -> tidy (step task_bool st a).
Proof.
  unfold tidy. intros (Hnd & Hlt & Hn & Hh). destruct a; simpl.
  - rewrite ids_app, app_assoc. simpl. split; [|split; [|split]]; auto.
    + apply NoDup_app; auto.
      * constructor; [intros []|constructor].
      * intros i Hi [<-|[]]. specialize (Hlt _ Hi). lia.
    + intros i Hi. apply in_app_or in Hi as [Hi|[<-|[]]]; [|lia].
      specialize (Hlt _ Hi). lia.
  - rewrite app_nil_r. split; [|split; [|split]]; auto.
    + now apply NoDup_app_remove_r in Hnd.
    + intros i Hi. apply Hlt, in_or_app. auto.
  - destruct (kill_frame st) as (E1 & E2 & E3). rewrite E1, E2, E3.
    split; [|split; [|split]]; auto.
    intros i Hi. now apply Hh, kill_held.
  - destruct (resume_split st) as (done & E & Es & En & Eh & Ei).
    simpl in *. rewrite Ei, Es, <- app_assoc.
    rewrite E, ids_app in Hnd, Hlt.
    split; [|split; [|split]].
    + now apply NoDup_accepted.
    + intros i Hi. apply Hlt.
      apply in_app_or in Hi as [Hi|Hi]; [apply in_or_app; auto|].
      apply in_app_or in Hi as [Hi|Hi]; apply in_or_app; right;
        apply in_or_app; auto using accepted_in.
    + intros i Hi. destruct (En i Hi) as [H|[H|H]]; apply in_or_app; auto.
    + intros i Hi. destruct (Eh i Hi) as [H|H]; apply in_or_app; auto.
  - destruct (send_trace t sync kw st) as (E1 & E2 & E3 & E4 & E5).
    unfold held in *. rewrite E1, E2, E3, E4, E5. auto.
  - auto.
Qed.

Lemma run_tidy (sched : list daction) (st : dstate) :
  tidy st -> tidy (run task_bool sched st).
Proof.
  revert st. induction sched as [|a s IH]; intros st H; auto.
  rewrite run_cons. apply IH, step_tidy, H.
Qed.

Lemma init_tidy : tidy (@init T V Cb Ev).
Proof.
  unfold tidy, held. simpl. split; [constructor|].
  split; [intros i []|]. split; [intros i []|]. intros i H. discriminate H.
Qed.

Lemma in_order_mono (tr : list dobs) :
  forall s1 s2 : list nat,
    (forall i, In i s1 -> In i s2) -> in_order s1 tr -> in_order s2 tr.
Proof.
  induction tr as [|[[id|] t s kw|[id|] ev|[id|] cb t] tr IH]; simpl;
    intros s1 s2 H; auto.
  - apply IH. intros i [->|Hi]; simpl; auto.
  - apply IH, H.
  - intros [A B]. split; eauto.
  - apply IH, H.
  - intros [A B]. split; eauto.
  - apply IH, H.
Qed.

Lemma in_order_app (a b : list dobs) :
  forall seen,
    in_order seen a -> in_order (sent a ++ seen) b -> in_order seen (a ++ b).
Proof.
  induction a as [|[[id|] t s kw|[id|] ev|[id|] cb t] a IH]; simpl;
    intros seen Ha Hb; auto.
  - apply IH; auto. revert Hb. apply in_order_mono.
    intros i [->|Hi]; apply in_or_app; simpl; auto.
    apply in_app_or in Hi as [Hi|Hi]; auto.
  - destruct Ha as [A B]. split; auto.
  - destruct Ha as [A B]. split; auto.
Qed.

Lemma in_order_split (pre : list dobs) (o : dobs) (post : list dobs) i :
  forall seen,
    in_order seen (pre ++ o :: post) -> notice o = Some i ->
    In i (sent pre ++ seen).
Proof.
  induction pre as [|[[id|] t s kw|[id|] ev|[id|] cb t] pre IH]; simpl;
    intros seen H Hn; try (now apply IH); try (apply IH; tauto).
  - destruct o as [[j|] t s kw|[j|] ev|[j|] cb t]; simpl in Hn;
      try discriminate; injection Hn as <-; simpl in H; tauto.
  - specialize (IH _ H Hn). apply in_app_or in IH as [Hi|[<-|Hi]]; auto.
    + right. apply in_or_app. auto.
    + right. apply in_or_app. auto.
Qed.

Lemma in_order_notify (seen : list nat) i (t : T) (cb : option Cb)
    (ev : option Ev) :
  In i seen -> in_order seen (notify (V := V) (Queued i) t cb ev).
Proof. destruct cb, ev; simpl; auto. Qed.

Lemma in_order_notify_direct (seen : list nat) (t : T) (cb : option Cb)
    (ev : option Ev) :
  in_order seen (notify (V := V) Direct t cb ev).
Proof. destruct cb, ev; simpl; auto. Qed.

Lemma in_order_send (tr : list dobs) o (t : T) sync (kw : kwargs_t V) :
  in_order [] tr ->
  in_order [] (tr ++ [@ObsDriverSend T V Cb Ev o t sync kw]).
Proof. intros H. apply in_order_app; auto. destruct o; exact I. Qed.

Lemma in_order_notified (tr : list dobs) i (t : T) (cb : option Cb)
    (ev : option Ev) :
  in_order [] tr -> In i (sent tr) ->
  in_order [] (tr ++ notify (Queued i) t cb ev).
Proof.
  intros H Hi. apply in_order_app; auto.
  apply in_order_notify, in_or_app. auto.
Qed.

Lemma send_queued_in_order :
  forall (q : list dentry) s (st : dstate),
    in_order [] (trace st) -> in_order [] (trace (send_queued q s st)).
Proof.
  induction q as [|e q IH]; intros s st H; simpl; auto.
  unfold _send, _send_finish; destruct (clashes _); simpl; auto.
  destruct (awaits _); simpl; auto using in_order_send.
  destruct (result _); simpl; auto using in_order_send.
  apply IH. simpl. apply in_order_notified; auto using in_order_send.
  rewrite sent_app. apply in_or_app. simpl. auto.
Qed.

Lemma step_in_order (st : dstate) (a : daction) :
  tidy st -> in_order [] (trace st) ->
  in_order [] (trace (step task_bool st a)).
Proof.
  intros (_ & _ & _ & Hh) H. destruct a; simpl; auto.
  - now destruct (kill_frame st) as (_ & -> & _).
  - unfold _send_thread, _send_finish.
    destruct (_thread st) as [[| |e sync [|n]|x]|] eqn:Hth; simpl; auto.
    + now apply send_queued_in_order.
    + destruct (_pending st); auto. now apply send_queued_in_order.
    + assert (Hi : In (eid e) (sent (trace st)))
        by (apply Hh; unfold held; now rewrite Hth).
      destruct (result _); simpl; auto.
      apply send_queued_in_order. simpl. now apply in_order_notified.
  - unfold send, _send, _send_finish.
    destruct (clashes _); auto.
    destruct (awaits _); simpl; auto using in_order_send.
    destruct (result _); simpl; auto using in_order_send.
    apply in_order_app; auto using in_order_send, in_order_notify_direct.
Qed.

Lemma run_in_order (sched : list daction) (st : dstate) :
  tidy st -> in_order [] (trace st) ->
  in_order [] (trace (run task_bool sched st)).
Proof.
  revert st. induction sched as [|a s IH]; intros st Ht H; auto.
  rewrite run_cons. apply IH; auto using step_tidy, step_in_order.
Qed.

(** X2: whatever the schedule, no queued tuple is handed to
    [_driver_send] twice, and the event or callback of a tuple is only
    ever used after that tuple was handed to [_driver_send]: at every
    record of an event set or a callback called for a queued tuple, the
    call of [_driver_send] for that tuple is earlier in the trace. *)
Theorem sent_at_most_once (sched : list daction) :
  NoDup (sent (trace (run task_bool sched init))) /\
  (forall pre o post i,
      trace (run task_bool sched init) = pre ++ o :: post ->
      notice o = Some i -> In i (sent pre)) /\
  (forall i, In i (notified (trace (run task_bool sched init))) ->
             In i (sent (trace (run task_bool sched init)))).
Proof.
  destruct (run_tidy sched init init_tidy) as (Hnd & _ & Hn & _).
  split; [now apply NoDup_app_remove_r in Hnd|]. split; [|exact Hn].
  intros pre o post i E Hi.
  pose proof (run_in_order sched init init_tidy I) as H.
  rewrite E in H. apply (in_order_split _ _ _ _ _ H) in Hi.
  now rewrite app_nil_r in Hi.
Qed.

(** *** A dead drain task stays dead *)

Lemma notes_app (a b : list dobs) : notes (a ++ b) = notes a ++ notes b.
Proof.
  induction a as [|[[id|] t s kw|[id|] ev|[id|] cb t] a IH]; simpl; auto;
    now rewrite IH.
Qed.

Lemma step_dead (st : dstate) (a : daction) :
  dead st ->
  dead (step task_bool st a) /\
  queued_syncs (trace (step task_bool st a)) = queued_syncs (trace st) /\
  notes (trace (step task_bool st a)) = notes (trace st).
Proof.
  unfold dead. intros Hd. destruct a; simpl; auto.
  - unfold kill.
    destruct (_thread st) as [pc|] eqn:E; [destruct (task_bool pc)|];
      simpl; rewrite ?E; auto.
  - unfold _send_thread.
    destruct (_thread st) as [[| |e sync n|x]|] eqn:E; try contradiction;
      rewrite ?E; auto.
  - unfold send, _send, _send_finish.
    destruct (clashes _); [|destruct (awaits _); [destruct (result _)|]];
      simpl; rewrite ?queued_syncs_app, ?notes_app; simpl;
      rewrite ?app_nil_r; auto.
Qed.

Lemma run_dead (sched : list daction) (st : dstate) :
  dead st ->
  dead (run task_bool sched st) /\
  queued_syncs (trace (run task_bool sched st)) = queued_syncs (trace st) /\
  notes (trace (run task_bool sched st)) = notes (trace st).
Proof.
  revert st. induction sched as [|a s IH]; intros st H; auto.
  destruct (step_dead st a H) as (A & B & C).
  destruct (IH _ A) as (A' & B' & C').
  rewrite run_cons. split; [exact A'|]. split; congruence.
Qed.

Lemma run_dead_sends (sched : list daction) (st : dstate) :
  dead st ->
  queued_sends (trace (run task_bool sched st)) = queued_sends (trace st).
Proof.
  revert st. induction sched as [|a s IH]; intros st H; auto.
  destruct (step_dead st a H) as (A & _ & _).
  rewrite run_cons, (IH _ A). clear IH A.
  unfold dead in H. destruct a; simpl; auto.
  - now destruct (kill_frame st) as (_ & -> & _).
  - unfold _send_thread.
    destruct (_thread st) as [[| |e sync n|x]|]; try contradiction; auto.
  - unfold send, _send, _send_finish.
    destruct (clashes _); [|destruct (awaits _); [destruct (result _)|]];
      simpl; rewrite ?queued_sends_app; simpl; now rewrite ?app_nil_r.
Qed.

Lemma resumes_finished (k : nat) (st : dstate) (x : exn) :
  _thread st = Some (Finished T V Cb Ev x) ->
  run task_bool (repeat (Resume T V Cb Ev) k) st = st.
Proof.
  intros H. induction k as [|k IH]; auto.
  simpl repeat. rewrite run_cons. simpl step.
  unfold _send_thread. now rewrite H.
Qed.

(** X3: an exception of the concrete send is fatal to the drain task.
    Once the task has ended with an exception, nothing that follows
    ([append], [clear], [kill], [send], resumptions) makes the driver hand
    another queued tuple to [_driver_send], set an event or call a
    callback. *)
Theorem raised_send_is_fatal (sched1 sched2 : list daction) (x : exn) :
  _thread (run task_bool sched1 init) = Some (Finished T V Cb Ev x) ->
  queued_syncs (trace (run task_bool (sched1 ++ sched2) init)) =
    queued_syncs (trace (run task_bool sched1 init)) /\
  notes (trace (run task_bool (sched1 ++ sched2) init)) =
    notes (trace (run task_bool sched1 init)).
Proof.
  intros H. rewrite run_app.
  apply (run_dead sched2 (run task_bool sched1 init)).
  unfold dead. now rewrite H.
Qed.


(** *** clear and what comes after *)


(** *** Every notification, once, in order *)

Lemma notes_notify id (t : T) (cb : option Cb) (ev : option Ev) :
  notes (notify (V := V) (Queued id) t cb ev) = notify (Queued id) t cb ev.
Proof. destruct cb, ev; reflexivity. Qed.

Lemma send_queued_owed (R : always_returns) :
  forall (q : list dentry) s (st : dstate),
    plain q ->
    notes (trace (send_queued q s st)) ++
      owed (held_entry (send_queued q s st) ++ _sendQ (send_queued q s st)) =
    notes (trace st) ++ owed q.
Proof.
  induction q as [|e q IH]; intros s st Hp; simpl.
  - reflexivity.
  - apply plain_cons in Hp as [He Hp].
    unfold _send, _send_finish. rewrite He. destruct (awaits _); simpl.
    + rewrite R. rewrite IH by assumption. simpl.
      rewrite !notes_app, notes_notify. simpl.
      now rewrite app_nil_r, <- app_assoc.
    + unfold held_entry. simpl. rewrite notes_app. simpl.
      now rewrite app_nil_r.
Qed.

Lemma step_owed (R : always_returns) (st : dstate) (a : daction) :
  keeps_queue a = true ->
  plain (_sendQ st) ->
  notes (trace (step task_bool st a)) ++
    owed (held_entry (step task_bool st a) ++ _sendQ (step task_bool st a)) =
  (notes (trace st) ++ owed (held_entry st ++ _sendQ st)) ++
    expected (next_id st) [a] /\
  next_id (step task_bool st a) =
    next_id st + List.length (appended [a]).
Proof.
  destruct a; simpl; try discriminate; intros _ Hp.
  - split; [|lia]. unfold held_entry, owed. simpl.
    rewrite !flat_map_app. simpl. now rewrite !app_nil_r, !app_assoc.
  - rewrite app_nil_r, Nat.add_0_r. unfold _send_thread, _send_finish.
    destruct (_thread st) as [[| |e sync [|n]|x]|] eqn:Hth; simpl; auto.
    + rewrite send_queued_owed, send_queued_next_id by assumption.
      unfold held_entry. now rewrite Hth.
    + destruct (_pending st).
      * rewrite send_queued_owed, send_queued_next_id by assumption.
        unfold held_entry. now rewrite Hth.
      * unfold held_entry. now rewrite Hth.
    + rewrite R. rewrite send_queued_owed, send_queued_next_id by assumption.
      simpl. unfold held_entry. rewrite Hth. simpl.
      rewrite notes_app, notes_notify. unfold owed. simpl.
      now rewrite <- app_assoc.
    + unfold held_entry. rewrite Hth. auto.
  - rewrite app_nil_r, Nat.add_0_r.
    destruct (send_trace t sync kw st) as (_ & _ & E3 & E4 & E5).
    unfold held_entry. rewrite E3, E4, E5. split; [|reflexivity].
    f_equal. unfold send, _send, _send_finish.
    destruct (clashes _); [|destruct (awaits _); [destruct (result _)|]];
      simpl; rewrite ?notes_app; simpl; now rewrite ?app_nil_r.
  - rewrite app_nil_r, Nat.add_0_r. auto.
Qed.

Lemma expected_app (n : nat) (s1 s2 : list daction) :
  expected n (s1 ++ s2) =
  expected n s1 ++ expected (n + List.length (appended s1)) s2.
Proof.
  revert n. induction s1 as [|a s1 IH]; intros n; simpl.
  - now rewrite Nat.add_0_r.
  - destruct a; simpl; rewrite IH; rewrite ?Nat.add_succ_r; simpl; auto.
    now rewrite <- app_assoc.
Qed.

Lemma run_owed (R : always_returns) (sched : list daction) (st : dstate) :
  forallb (@keeps_queue _ _ _ _) sched = true ->
  forallb (@plain_action _ _ _ _) sched = true ->
  plain (_sendQ st) ->
  notes (trace (run task_bool sched st)) ++
    owed (held_entry (run task_bool sched st) ++
          _sendQ (run task_bool sched st)) =
  (notes (trace st) ++ owed (held_entry st ++ _sendQ st)) ++
    expected (next_id st) sched.
Proof.
  revert st. induction sched as [|a s IH]; intros st Hk Hpl Hp.
  - simpl. now rewrite app_nil_r.
  - simpl in Hk, Hpl. apply andb_true_iff in Hk as [Ha Hs].
    apply andb_true_iff in Hpl as [Hpa Hps].
    destruct (step_owed R st a Ha Hp) as [E1 E2].
    rewrite run_cons, IH, E1, E2 by auto using step_plain.
    change (a :: s) with ([a] ++ s).
    now rewrite expected_app, <- !app_assoc.
Qed.


(** *** Synchronising again *)



End Facts.
End DriverFacts.

(** * Properties of ValidatedBusDriver._next_valids *)
Module ValidatedBusDriverFacts.
Import ValidatedBusDriver.

Unset Implicit Arguments.

Lemma next_exhausted (g : generator) :
  next g = None <-> gen_items g (gen_pos g) = None.
Proof.
  unfold next. destruct (gen_items g (gen_pos g)); split; congruence.
Qed.

Lemma next_yields (g : generator) (p : Z * Z) (g' : generator) :
  next g = Some (p, g') ->
  gen_items g (gen_pos g) = Some p /\ g' = advanced g 1.
Proof.
  unfold next, advanced. destruct (gen_items g (gen_pos g)); [|discriminate].
  intros [= -> <-]. now rewrite Nat.add_1_r.
Qed.

(** C4: with a valid generator that yields (0,3), (0,2), (5,1), one call
    of [_next_valids] pulls all three pairs, passes over the two whose [on]
    is zero and leaves [on = 5], [off = 1]; this holds whatever [on] and
    [off] were before, and four tests of the loop condition are enough. *)
Theorem skips_zero_on_pairs (on0 off0 : attr) (log0 : list log_record)
    (fuel : nat) :
  _next_valids (4 + fuel)
    (State on0 off0 (Some (gen_of_list [(0, 3); (0, 2); (5, 1)]%Z)) log0) =
  Some (State (PyInt 5) (PyInt 1)
          (Some (advanced (gen_of_list [(0, 3); (0, 2); (5, 1)]%Z) 3))
          (log0 ++ [DebugWillBeOn (PyInt 5) (PyInt 1)])).
Proof. reflexivity. Qed.

Lemma valids_loop_skips :
  forall (zeros pre : list (Z * Z)) (a b : Z) (rest : list (Z * Z))
         (st : state) (fuel : nat),
    Forall (fun p => fst p = 0%Z) zeros -> a <> 0%Z ->
    truthy (on st) = false ->
    valids_loop (List.length zeros + 2 + fuel)
      (Generator (nth_error (pre ++ zeros ++ (a, b) :: rest))
                 (List.length pre)) st =
    Some (State (PyInt a) (PyInt b)
            (Some (Generator (nth_error (pre ++ zeros ++ (a, b) :: rest))
                             (List.length pre + List.length zeros + 1)))
            (log st ++ [DebugWillBeOn (PyInt a) (PyInt b)])).
Proof.
  induction zeros as [|[z zb] zeros IH]; intros pre a b rest st fuel Hz Ha Hon.
  - simpl. rewrite Hon. unfold next. simpl.
    rewrite nth_error_app2, Nat.sub_diag by lia. simpl.
    apply Z.eqb_neq in Ha. rewrite Ha. simpl.
    do 4 f_equal. lia.
  - inversion Hz as [|p l Hp Hz']; subst. simpl in Hp. subst z.
    change (List.length ((0%Z, zb) :: zeros) + 2 + fuel)
      with (S (List.length zeros + 2 + fuel)).
    simpl valids_loop. rewrite Hon. unfold next. simpl gen_items.
    simpl gen_pos. rewrite nth_error_app2, Nat.sub_diag by lia. simpl.
    replace (pre ++ (0%Z, zb) :: zeros ++ (a, b) :: rest)
      with ((pre ++ [(0%Z, zb)]) ++ zeros ++ (a, b) :: rest)
      by (now rewrite <- app_assoc).
    replace (S (List.length pre)) with (List.length (pre ++ [(0%Z, zb)]))
      by (rewrite length_app; simpl; lia).
    rewrite IH by auto. simpl. do 4 f_equal.
    rewrite length_app. simpl. lia.
Qed.

(** X10: whatever the number of pairs with [on = 0] a generator yields
    first, one call of [_next_valids] passes over all of them and settles
    on the first pair [(a, b)] with [a <> 0]: [on = a], [off = b], and the
    generator is left just after that pair.  One test of the loop condition
    per pulled pair, plus one, is enough. *)
Lemma next_valids_skips (zeros : list (Z * Z)) (a b : Z)
    (rest : list (Z * Z)) (st : state) (fuel : nat) :
  Forall (fun p => fst p = 0%Z) zeros -> a <> 0%Z ->
  valid_generator st = Some (gen_of_list (zeros ++ (a, b) :: rest)) ->
  _next_valids (List.length zeros + 2 + fuel) st =
  Some (State (PyInt a) (PyInt b)
          (Some (advanced (gen_of_list (zeros ++ (a, b) :: rest))
                          (List.length zeros + 1)))
          (log st ++ [DebugWillBeOn (PyInt a) (PyInt b)])).
Proof.
  intros Hz Ha Hg. unfold _next_valids. rewrite Hg. unfold gen_of_list.
  apply (valids_loop_skips zeros [] a b rest
           (State (PyBool false) (off st)
                  (Some (Generator (nth_error (zeros ++ (a, b) :: rest)) 0))
                  (log st)) fuel Hz Ha eq_refl).
Qed.

Lemma next_valids_exhausted (st : state) (g : generator) (fuel : nat) :
  valid_generator st = Some g -> next g = None ->
  _next_valids (S fuel) st =
  Some (State (PyBool true) (off st) (Some g) (log st ++ [InfoExhausted])).
Proof.
  intros Hg Hn. unfold _next_valids. rewrite Hg. simpl. now rewrite Hn.
Qed.

(** C5: when the configured generator is exhausted, every call of
    [_next_valids] returns (one test of the loop condition is enough) and
    leaves [on = True]; the generator is still the same exhausted
    generator afterwards, so the same holds for each of any number of
    calls in a row. *)
Theorem exhausted_generator_stays_on (st : state) (g : generator)
    (n fuel : nat) :
  valid_generator st = Some g -> next g = None ->
  exists st',
    calls (S n) (S fuel) st = Some st' /\
    on st' = PyBool true /\ off st' = off st /\
    valid_generator st' = Some g.
Proof.
  intros Hg Hn. revert st Hg. induction n as [|n IH]; intros st Hg.
  - simpl calls. rewrite (next_valids_exhausted st g fuel Hg Hn).
    eexists. split; [reflexivity|]. simpl. auto.
  - change (calls (S (S n)) (S fuel) st)
      with (match _next_valids (S fuel) st with
            | Some st' => calls (S n) (S fuel) st'
            | None => None
            end).
    rewrite (next_valids_exhausted st g fuel Hg Hn).
    destruct (IH (State (PyBool true) (off st) (Some g)
                        (log st ++ [InfoExhausted])) eq_refl)
      as (st' & E & A & B & C).
    exists st'. auto.
Qed.

Lemma valids_loop_exhausted :
  forall (fuel : nat) (g : generator) (st st' : state),
    valids_loop fuel g st = Some st' ->
    log st' = log st ++ [InfoExhausted] ->
    on st' = PyBool true /\
    exists n,
      gen_items g (gen_pos g + n) = None /\
      (forall i, i < n -> exists b, gen_items g (gen_pos g + i) = Some (0%Z, b)) /\
      off st' = last_off g n (off st) /\
      valid_generator st' =
        match n with
        | O => valid_generator st
        | S _ => Some (advanced g n)
        end.
Proof.
  induction fuel as [|f IH]; intros g st st' Hrun Hlog; [discriminate|].
  simpl in Hrun. destruct (truthy (on st)) eqn:Hon.
  - injection Hrun as <-. simpl in Hlog.
    apply app_inv_head in Hlog. discriminate.
  - destruct (next g) as [[[a b] g']|] eqn:Hn.
    + apply next_yields in Hn as [Hi ->].
      assert (Ha : a = 0%Z).
      { destruct f as [|f']; [discriminate|]. simpl in Hrun.
        destruct (a =? 0)%Z eqn:Ea; [now apply Z.eqb_eq|].
        simpl in Hrun. injection Hrun as <-. simpl in Hlog.
        apply app_inv_head in Hlog. discriminate. }
      subst a.
      destruct (IH _ _ _ Hrun Hlog) as (Ho & n & Hnone & Hz & Hoff & Hvg).
      split; [exact Ho|]. exists (S n). simpl in *.
      replace (gen_pos g + S n) with (gen_pos g + 1 + n) by lia.
      split; [exact Hnone|]. split; [|split].
      * intros [|i] Hlt.
        -- exists b. now rewrite Nat.add_0_r.
        -- destruct (Hz i ltac:(lia)) as [b' Hb']. exists b'.
           now replace (gen_pos g + S i) with (gen_pos g + 1 + i) by lia.
      * rewrite Hoff. unfold last_off. simpl. destruct n as [|m].
        -- now rewrite Nat.add_0_r, Hi.
        -- destruct (Hz m ltac:(lia)) as [b' Hb'].
           replace (gen_pos g + S m) with (gen_pos g + 1 + m) by lia.
           now rewrite Hb'.
      * rewrite Hvg. unfold advanced. simpl. destruct n as [|m].
        -- reflexivity.
        -- f_equal. f_equal. lia.
    + injection Hrun as <-. simpl. split; [reflexivity|].
      exists 0. rewrite Nat.add_0_r. apply next_exhausted in Hn.
      repeat split; auto. intros i Hi. lia.
Qed.

(** Such calls exist and return: over a generator that has [n] pairs with
    [on = 0] left and then stops, the loop ends in the handler after
    [n + 1] tests of its condition. *)
Lemma valids_loop_runs_dry :
  forall (n : nat) (g : generator) (st : state) (fuel : nat),
    truthy (on st) = false ->
    (forall i, i < n -> exists b, gen_items g (gen_pos g + i) = Some (0%Z, b)) ->
    gen_items g (gen_pos g + n) = None ->
    exists st',
      valids_loop (S n + fuel) g st = Some st' /\
      log st' = log st ++ [InfoExhausted] /\
      on st' = PyBool true /\
      off st' = last_off g n (off st).
Proof.
  induction n as [|n IH]; intros g st fuel Hon Hz Hnone.
  - rewrite Nat.add_0_r in Hnone. apply next_exhausted in Hnone.
    simpl. rewrite Hon, Hnone. eexists. split; [reflexivity|]. simpl. auto.
  - destruct (Hz 0 ltac:(lia)) as [b Hb]. rewrite Nat.add_0_r in Hb.
    change (S (S n) + fuel) with (S (S n + fuel)).
    simpl valids_loop. rewrite Hon. unfold next at 1. rewrite Hb.
    destruct (IH (Generator (gen_items g) (S (gen_pos g)))
                 (State (PyInt 0) (PyInt b)
                    (Some (Generator (gen_items g) (S (gen_pos g))))
                    (log st)) fuel eq_refl) as (st' & E & A & B & C).
    + intros i Hi. destruct (Hz (S i) ltac:(lia)) as [b' Hb'].
      exists b'. simpl. now replace (S (gen_pos g + i)) with (gen_pos g + S i) by lia.
    + simpl. now replace (S (gen_pos g + n)) with (gen_pos g + S n) by lia.
    + exists st'. split; [exact E|]. split; [exact A|]. split; [exact B|].
      rewrite C. unfold last_off. simpl. destruct n as [|m].
      * now rewrite Nat.add_0_r, Hb.
      * destruct (Hz (S m) ltac:(lia)) as [b' Hb'].
        replace (S (gen_pos g + m)) with (gen_pos g + S m) by lia.
        now rewrite Hb'.
Qed.

Lemma next_valids_runs_dry (n : nat) (g : generator) (st : state)
    (fuel : nat) :
  valid_generator st = Some g ->
  (forall i, i < n -> exists b, gen_items g (gen_pos g + i) = Some (0%Z, b)) ->
  gen_items g (gen_pos g + n) = None ->
  exists st',
    _next_valids (S n + fuel) st = Some st' /\
    left_exhausted st st' /\
    on st' = PyBool true /\
    off st' = last_off g n (off st).
Proof.
  intros Hg Hz Hnone. unfold _next_valids, left_exhausted. rewrite Hg.
  apply (valids_loop_runs_dry n g
           (State (PyBool false) (off st) (Some g) (log st)) fuel eq_refl
           Hz Hnone).
Qed.

(** C9 (as amended): when a call of [_next_valids] ends in the
    StopIteration handler, [on] is [True] and [off] is what it was when
    [next] raised: the [off] count of the last pair pulled during the call
    (a pair with [on = 0], passed over), or, when the generator was already
    exhausted at the first [next] of the call, the value [off] had before
    the call.  The [n] pairs pulled all have [on = 0], and the generator is
    left [n] items further, exhausted. *)
Theorem exhausted_off_is_last_pulled (fuel : nat) (st st' : state) :
  _next_valids fuel st = Some st' ->
  left_exhausted st st' ->
  on st' = PyBool true /\
  exists g n,
    valid_generator st = Some g /\
    gen_items g (gen_pos g + n) = None /\
    (forall i, i < n -> exists b, gen_items g (gen_pos g + i) = Some (0%Z, b)) /\
    off st' = last_off g n (off st) /\
    valid_generator st' =
      match n with
      | O => Some g
      | S _ => Some (advanced g n)
      end.
Proof.
  unfold _next_valids, left_exhausted. intros Hrun Hlog.
  destruct (valid_generator st) as [g|] eqn:Hg.
  - destruct (valids_loop_exhausted _ _ _ _ Hrun Hlog)
      as (Ho & n & Hnone & Hz & Hoff & Hvg).
    split; [exact Ho|]. exists g, n. simpl in *. auto.
  - injection Hrun as <-. simpl in Hlog.
    apply app_inv_head in Hlog. discriminate.
Qed.

(** *** What a call can leave behind *)

Lemma valids_loop_on_truthy :
  forall (fuel : nat) (g : generator) (st st' : state),
    valids_loop fuel g st = Some st' -> truthy (on st') = true.
Proof.
  induction fuel as [|f IH]; intros g st st' H; [discriminate|].
  simpl in H. destruct (truthy (on st)) eqn:Hon.
  - injection H as <-. exact Hon.
  - destruct (next g) as [[[a b] g']|].
    + eapply IH, H.
    + injection H as <-. reflexivity.
Qed.

(** X11: whenever [_next_valids] returns, [on] is true in Python's sense:
    [True] or a non-zero count, never [False], [None] or 0.  So the window
    it leaves always has at least one valid cycle. *)
Theorem next_valids_on_truthy (fuel : nat) (st st' : state) :
  _next_valids fuel st = Some st' -> truthy (on st') = true.
Proof.
  unfold _next_valids. destruct (valid_generator st) as [g|].
  - apply valids_loop_on_truthy.
  - intros [= <-]. reflexivity.
Qed.

Lemma valids_loop_spins :
  forall (fuel : nat) (g : generator) (st : state),
    truthy (on st) = false ->
    (forall i, exists b, gen_items g (gen_pos g + i) = Some (0%Z, b)) ->
    valids_loop fuel g st = None.
Proof.
  induction fuel as [|f IH]; intros g st Hon Hz; [reflexivity|].
  simpl. rewrite Hon. destruct (Hz 0) as [b Hb].
  rewrite Nat.add_0_r in Hb. unfold next. rewrite Hb.
  apply IH; [reflexivity|]. intros i. simpl.
  destruct (Hz (S i)) as [b' Hb']. exists b'.
  rewrite <- Hb'. f_equal. lia.
Qed.

(** X12: the loop of [_next_valids] has no bound of its own.  On a
    generator that goes on for ever and only yields pairs with [on = 0],
    the call never returns: it is still pulling pairs after any number of
    tests of the loop condition. *)
Theorem zero_on_forever_never_returns (g : generator) (st : state)
    (fuel : nat) :
  valid_generator st = Some g ->
  (forall i, exists b, gen_items g (gen_pos g + i) = Some (0%Z, b)) ->
  _next_valids fuel st = None.
Proof.
  intros Hg Hz. unfold _next_valids. rewrite Hg.
  now apply valids_loop_spins.
Qed.

Lemma valids_loop_settles :
  forall (fuel : nat) (g : generator) (st st' : state),
    truthy (on st) = false ->
    valids_loop fuel g st = Some st' ->
    log st' = log st ++ [InfoExhausted] \/
    exists n a b,
      (forall i, i < n ->
         exists b', gen_items g (gen_pos g + i) = Some (0%Z, b')) /\
      gen_items g (gen_pos g + n) = Some (a, b) /\ a <> 0%Z /\
      on st' = PyInt a /\ off st' = PyInt b /\
      valid_generator st' = Some (advanced g (S n)).
Proof.
  induction fuel as [|f IH]; intros g st st' Hon H; [discriminate|].
  simpl in H. rewrite Hon in H.
  destruct (next g) as [[[a b] g']|] eqn:Hn.
  - apply next_yields in Hn as [Hi ->].
    destruct (a =? 0)%Z eqn:Ea.
    + apply Z.eqb_eq in Ea. subst a.
      apply IH in H; [|reflexivity].
      destruct H as [Hl|(n & a & b' & Hz & Hs & Ha & A & B & C)].
      * left. exact Hl.
      * right. exists (S n), a, b'. simpl in *.
        replace (gen_pos g + S n) with (gen_pos g + 1 + n) by lia.
        split; [|split; [exact Hs|]].
        -- intros [|i] Hlt.
           ++ exists b. now rewrite Nat.add_0_r.
           ++ destruct (Hz i ltac:(lia)) as [b'' Hb'']. exists b''.
              now replace (gen_pos g + S i) with (gen_pos g + 1 + i) by lia.
        -- split; [exact Ha|]. split; [exact A|]. split; [exact B|].
           rewrite C. unfold advanced. simpl. do 2 f_equal. lia.
    + right. exists 0, a, b. rewrite Nat.add_0_r.
      destruct f as [|f']; [discriminate|]. simpl in H. rewrite Ea in H.
      simpl in H. injection H as <-. simpl.
      split; [intros i Hlt; lia|]. split; [exact Hi|].
      split; [now apply Z.eqb_neq|]. auto.
  - left. injection H as <-. reflexivity.
Qed.

(** X13: a call of [_next_valids] on a driver with a generator can only
    end in two ways: in the StopIteration handler, or settled on the first
    pair the generator had left whose [on] is not zero, with every pair
    before it (all with [on = 0]) consumed and the generator left just
    after it.  It never settles on a pair with [on = 0] and never passes
    over a pair it could use. *)
Theorem next_valids_settles_on_first_usable (fuel : nat) (g : generator)
    (st st' : state) :
  valid_generator st = Some g ->
  _next_valids fuel st = Some st' ->
  left_exhausted st st' \/
  exists n a b,
    (forall i, i < n ->
       exists b', gen_items g (gen_pos g + i) = Some (0%Z, b')) /\
    gen_items g (gen_pos g + n) = Some (a, b) /\ a <> 0%Z /\
    on st' = PyInt a /\ off st' = PyInt b /\
    valid_generator st' = Some (advanced g (S n)).
Proof.
  unfold _next_valids, left_exhausted. intros Hg H. rewrite Hg in H.
  apply (valids_loop_settles fuel g
           (State (PyBool false) (off st) (Some g) (log st)) st' eq_refl H).
Qed.

End ValidatedBusDriverFacts.

(** * Properties of BitDriver.start *)
Module BitDriverFacts.
Import BitDriver.

Unset Implicit Arguments.

Lemma nth_error_last (ts : list twiddler_pc) (pc : twiddler_pc) :
  nth_error (ts ++ [pc]) (List.length ts) = Some pc.
Proof.
  rewrite nth_error_app2 by lia. now rewrite Nat.sub_diag.
Qed.

Lemma set_task_last (ts : list twiddler_pc) (pc pc' : twiddler_pc) :
  set_task (List.length ts) pc' (ts ++ [pc]) = ts ++ [pc'].
Proof.
  unfold set_task.
  rewrite firstn_app, firstn_all, Nat.sub_diag, skipn_app, skipn_all,
    Nat.sub_diag. simpl. now rewrite app_nil_r.
Qed.

(** C7 (as amended): on a BitDriver that has no generator, [start] called
    without one returns to its caller with the handle of a newly forked
    task.  The configuration error is raised inside that task, by the
    first step of its coroutine, before the signal is driven and before
    any edge is awaited, and it ends the task.  That first step has
    already run when [start] returns if the scheduler runs new tasks at
    once, and runs at the task's first resumption otherwise. *)
Theorem start_without_generator_fails_in_task (eager : bool) (fuel : nat)
    (st : state) :
  _generator st = None ->
  exists st1,
    start eager fuel None st = Some st1 /\
    _cr st1 = Some (List.length (tasks st)) /\
    current_task st1 =
      Some (if eager then Failed NoGeneratorProvided else Created None) /\
    exists st2,
      (if eager then Some st1
       else _cr_twiddler fuel (List.length (tasks st)) st1) = Some st2 /\
      current_task st2 = Some (Failed NoGeneratorProvided) /\
      _signal st2 = _signal st /\ _generator st2 = None.
Proof.
  intros Hg. unfold start, current_task.
  destruct eager.
  - unfold _cr_twiddler. simpl. rewrite nth_error_last, Hg, set_task_last.
    eexists. split; [reflexivity|]. simpl. rewrite nth_error_last.
    split; [reflexivity|]. split; [reflexivity|].
    eexists. split; [reflexivity|]. simpl. rewrite nth_error_last. auto.
  - eexists. split; [reflexivity|]. simpl. rewrite nth_error_last.
    split; [reflexivity|]. split; [reflexivity|].
    unfold _cr_twiddler. simpl. rewrite nth_error_last, Hg, set_task_last.
    eexists. split; [reflexivity|]. simpl. rewrite nth_error_last. auto.
Qed.

End BitDriverFacts.

(** * Properties of polled_socket_attachment *)
Module SocketFacts.
Import Socket.

Unset Implicit Arguments.

Section Facts.

Variables T V Cb Ev : Type.
Variables EAGAIN EWOULDBLOCK : Z.
Variable of_bytes : list Byte.byte -> T.

Abbreviation attach :=
  (@polled_socket_attachment T V Cb Ev EAGAIN EWOULDBLOCK of_bytes).
Abbreviation poll := (@poll_once T V Cb Ev EAGAIN EWOULDBLOCK of_bytes).

(** C8: one turn of the poll loop, and what the loop does after it.  On a
    would-block error (EAGAIN or EWOULDBLOCK) nothing is appended and the
    loop goes on with the next turn, the driver as it was; on an empty
    read the loop is left without an exception and nothing is appended;
    any other socket error goes out of the coroutine, ending the loop,
    and nothing is appended; and received data is appended to the driver
    as one transaction, with no callback, no event and no keyword
    arguments: a new tuple holding it is last on the queue, the pending
    flag is set and the loop goes on with the next turn. *)
Theorem poll_loop_cases (rest : list recv_result)
    (st : Driver.state T V Cb Ev) :
  (forall e, e = EAGAIN \/ e = EWOULDBLOCK ->
     poll (SocketError e) st = (Continue, st) /\
     attach (SocketError e :: rest) st = attach rest st) /\
  (poll (Data []) st = (Break, st) /\
   attach (Data [] :: rest) st = (Some Break, st)) /\
  (forall e, e <> EAGAIN -> e <> EWOULDBLOCK ->
     poll (SocketError e) st = (Raise e, st) /\
     attach (SocketError e :: rest) st = (Some (Raise e), st)) /\
  (forall data, data <> [] ->
     let st' := Driver.append (of_bytes data) None None [] st in
     poll (Data data) st = (Continue, st') /\
     attach (Data data :: rest) st = attach rest st' /\
     Driver._sendQ st' =
       Driver._sendQ st ++
       [Driver.Entry (Driver.next_id st) (of_bytes data) None None []] /\
     Driver._pending st' = true /\
     Driver._thread st' = Driver._thread st /\
     Driver.trace st' = Driver.trace st).
Proof.
  unfold poll_once. repeat split.
  - destruct H as [->| ->]; rewrite Z.eqb_refl; simpl; auto.
    now rewrite orb_true_r.
  - simpl. destruct H as [->| ->]; rewrite Z.eqb_refl; simpl; auto.
    now rewrite orb_true_r.
  - simpl. apply Z.eqb_neq in H, H0. now rewrite H, H0.
  - simpl. apply Z.eqb_neq in H, H0. now rewrite H, H0.
  - destruct data; [contradiction|reflexivity].
  - destruct data; [contradiction|reflexivity].
Qed.

(** A would-block turn leaves the coroutine polling, whatever follows. *)
Lemma would_block_keeps_polling (rs : list recv_result)
    (st : Driver.state T V Cb Ev) :
  polled_socket_attachment EAGAIN EWOULDBLOCK of_bytes
    (SocketError EAGAIN :: rs) st =
  polled_socket_attachment EAGAIN EWOULDBLOCK of_bytes rs st.
Proof. simpl. now rewrite Z.eqb_refl. Qed.

End Facts.
End SocketFacts.

(** * Closed instances on the test bench *)
Module Checks.
Import Driver DriverFacts Bench.

Unset Implicit Arguments.

Lemma bus_always_returns : always_returns (DS := bus).
Proof. intros t sync [|[k []] kw]. reflexivity. Qed.

(** The whole trace of [three_appends] once the queue is drained. *)
Example three_appends_trace :
  trace (run_bus (three_appends ++ [resume; resume])) =
  [called (Queued 0) 10 true [];
   called (Queued 1) 20 false [];
   event_set (Queued 1) 2; called_back (Queued 1) 1 20;
   called (Queued 2) 30 false []].
Proof. reflexivity. Qed.

(** After the queue has run dry the next send synchronises again. *)
Example resynchronises_after_idle :
  queued_syncs
    (trace (run_bus (burst ++ [resume; resume;
                               Driver.Append 40 None None []; resume]))) =
  [(0, true); (1, false); (2, false); (3, true)].
Proof. reflexivity. Qed.

(** The base class: the first send kills the drain task. *)
Example base_driver_dies :
  _thread (run (DS := @base_driver_send nat Empty_set) running
             [resume; Driver.Append 10 None None [];
              Driver.Append 20 None None []; resume] init) =
  Some (Finished _ _ _ _ NotImplementedError).
Proof. reflexivity. Qed.





Lemma cleared_never_notified_witness :
  In (tuple 1 20 (Some 1) None []) (_sendQ (run_bus burst)) /\
  ~ In 1 (notified
            (trace (run_bus (burst ++ clear_queue ::
                               [Driver.Append 40 (Some 1) None []; resume;
                                resume; resume])))) /\
  ~ In 1 (sent
            (trace (run_bus (burst ++ clear_queue ::
                               [Driver.Append 40 (Some 1) None []; resume;
                                resume; resume])))).
Proof.
  assert (H : In (tuple 1 20 (Some 1) None []) (_sendQ (run_bus burst)))
    by (simpl; auto).
  split; [exact H|].
  exact (@cleared_never_notified nat Empty_set nat nat bus running burst
           [Driver.Append 40 (Some 1) None []; resume; resume; resume]
           (tuple 1 20 (Some 1) None []) H).
Defined.

(** The claim of C6 fails: a queued send and a call of [send] are both in
    flight, waiting for the same clock edge to write the bus, and the lock
    is not held. *)
Lemma two_sends_in_flight_unlocked :
  in_flight (run_bus overlap) = 2 /\
  busy (run_bus overlap) = false /\
  busy_event (run_bus overlap) = false.
Proof. repeat split; reflexivity. Qed.

Lemma lock_left_to_subclasses_witness :
  busy (run_bus overlap) = false /\
  (exists st', _acquire_lock (run_bus overlap) = Some st' /\
               busy st' = true /\ busy_event st' = false).
Proof.
  destruct (@lock_left_to_subclasses nat Empty_set nat nat bus running
              overlap (run_bus overlap)) as (A & _ & C & _).
  split; [exact A|]. apply C. exact A.
Defined.

(** The claim of C10 fails.  On the base class the drain task has ended
    with NotImplementedError; its handle is still set, and false.  The
    first [kill] finds it so, does nothing, and leaves the handle set. *)
Lemma kill_leaves_finished_handle :
  _thread (Bench2.run_base (Bench2.two_appends ++ [resume])) =
    Some (Finished _ _ _ _ NotImplementedError) /\
  running (Finished _ _ _ _ NotImplementedError) = false /\
  kill running (Bench2.run_base (Bench2.two_appends ++ [resume])) =
    Bench2.run_base (Bench2.two_appends ++ [resume]) /\
  _thread (kill running
             (Bench2.run_base (Bench2.two_appends ++ [resume]))) <> None.
Proof.
  split; [vm_compute; reflexivity|]. split; [reflexivity|].
  split; [vm_compute; reflexivity|]. vm_compute. discriminate.
Qed.

Lemma kill_idempotent_witness :
  Nat.iter 3 (kill running) (kill running (run_bus burst)) =
    kill running (run_bus burst) /\
  _thread (kill running (run_bus burst)) = None /\
  _thread (kill running
             (Bench2.run_base (Bench2.two_appends ++ [resume]))) =
    Some (Finished _ _ _ _ NotImplementedError).
Proof.
  destruct (@kill_idempotent nat Empty_set nat nat running (run_bus burst) 3)
    as (A & B & _).
  destruct (@kill_idempotent nat Empty_set nat nat running
              (Bench2.run_base (Bench2.two_appends ++ [resume])) 0)
    as (_ & _ & C & _).
  split; [exact A|]. split.
  - apply (B (AtPendingWait _ _ _ _)); reflexivity.
  - apply (C (Finished _ _ _ _ NotImplementedError)); reflexivity.
Defined.

(** An exhausted generator, called three times in a row. *)
Lemma exhausted_generator_stays_on_witness :
  ValidatedBusDriver.valid_generator
    (ValidatedBusDriver.State ValidatedBusDriver.PyNone
       ValidatedBusDriver.PyNone (Some (gen_of_list [])) []) =
    Some (gen_of_list []) /\
  next (gen_of_list []) = None /\
  exists st',
    ValidatedBusDriver.calls 3 1
      (ValidatedBusDriver.State ValidatedBusDriver.PyNone
         ValidatedBusDriver.PyNone (Some (gen_of_list [])) []) = Some st' /\
    ValidatedBusDriver.on st' = ValidatedBusDriver.PyBool true /\
    ValidatedBusDriver.off st' = ValidatedBusDriver.PyNone /\
    ValidatedBusDriver.valid_generator st' = Some (gen_of_list []).
Proof.
  split; [reflexivity|]. split; [reflexivity|].
  apply (ValidatedBusDriverFacts.exhausted_generator_stays_on
           (ValidatedBusDriver.State ValidatedBusDriver.PyNone
              ValidatedBusDriver.PyNone (Some (gen_of_list [])) [])
           (gen_of_list []) 2 0); reflexivity.
Defined.

(** The claim of C9 fails: the constructor is given a generator that
    yields (0, 3) and stops.  The call ends in the StopIteration handler,
    and [off], which was [None] before the call, is 3 after it. *)
Lemma off_overwritten_before_exhaustion :
  ValidatedBusDriver._next_valids 3 one_zero_pair =
    Some (ValidatedBusDriver.State (ValidatedBusDriver.PyBool true)
            (ValidatedBusDriver.PyInt 3)
            (Some (ValidatedBusDriver.advanced (gen_of_list [(0, 3)]%Z) 1))
            [ValidatedBusDriver.InfoExhausted]) /\
  ValidatedBusDriver.off one_zero_pair = ValidatedBusDriver.PyNone /\
  ~ (forall fuel st st',
       ValidatedBusDriver._next_valids fuel st = Some st' ->
       ValidatedBusDriver.left_exhausted st st' ->
       ValidatedBusDriver.off st' = ValidatedBusDriver.off st).
Proof.
  split; [reflexivity|]. split; [reflexivity|].
  intros H. specialize (H 3 one_zero_pair _ eq_refl eq_refl). discriminate H.
Qed.

Lemma exhausted_off_is_last_pulled_witness :
  ValidatedBusDriver.on
    (ValidatedBusDriver.State (ValidatedBusDriver.PyBool true)
       (ValidatedBusDriver.PyInt 3)
       (Some (ValidatedBusDriver.advanced (gen_of_list [(0, 3)]%Z) 1))
       [ValidatedBusDriver.InfoExhausted]) = ValidatedBusDriver.PyBool true /\
  exists g n,
    ValidatedBusDriver.valid_generator one_zero_pair = Some g /\
    gen_items g (gen_pos g + n) = None /\
    (forall i, i < n ->
       exists b, gen_items g (gen_pos g + i) = Some (0%Z, b)) /\
    ValidatedBusDriver.PyInt 3 =
      ValidatedBusDriver.last_off g n ValidatedBusDriver.PyNone /\
    Some (ValidatedBusDriver.advanced (gen_of_list [(0, 3)]%Z) 1) =
      match n with
      | O => Some g
      | S _ => Some (ValidatedBusDriver.advanced g n)
      end.
Proof.
  apply (ValidatedBusDriverFacts.exhausted_off_is_last_pulled 3 one_zero_pair
           (ValidatedBusDriver.State (ValidatedBusDriver.PyBool true)
              (ValidatedBusDriver.PyInt 3)
              (Some (ValidatedBusDriver.advanced (gen_of_list [(0, 3)]%Z) 1))
              [ValidatedBusDriver.InfoExhausted]));
    reflexivity.
Defined.

(** The claim of C7 fails: [start] returns with a task handle, under a
    scheduler that runs the new task at once and under one that does not;
    the error is the outcome of the task. *)
Lemma start_returns_a_handle :
  BitDriver.start true 0 None (BitDriver.init None) =
    Some (BitDriver.State [] None [BitDriver.Failed NoGeneratorProvided]
            (Some 0)) /\
  BitDriver.start false 0 None (BitDriver.init None) =
    Some (BitDriver.State [] None [BitDriver.Created None] (Some 0)).
Proof. split; reflexivity. Qed.

Lemma start_without_generator_fails_in_task_witness :
  BitDriver._generator (BitDriver.init None) = None /\
  exists st1,
    BitDriver.start false 0 None (BitDriver.init None) = Some st1 /\
    BitDriver._cr st1 = Some 0 /\
    BitDriver.current_task st1 = Some (BitDriver.Created None) /\
    exists st2,
      BitDriver._cr_twiddler 0 0 st1 = Some st2 /\
      BitDriver.current_task st2 =
        Some (BitDriver.Failed NoGeneratorProvided) /\
      BitDriver._signal st2 = [] /\ BitDriver._generator st2 = None.
Proof.
  split; [reflexivity|].
  apply (BitDriverFacts.start_without_generator_fails_in_task false 0
           (BitDriver.init None)).
  reflexivity.
Defined.

(** A driven bit: two cycles high, one low, from a cycling generator. *)
Example bit_driver_duty_cycle :
  match BitDriver.start true 1 (Some (gen_cycle [(2, 1)]%Z))
          (BitDriver.init None) with
  | Some st =>
      option_map BitDriver._signal
        (BitDriver._cr_twiddler 1 0 st) = Some [1%Z] /\
      match BitDriver._cr_twiddler 1 0 st with
      | Some st' =>
          option_map BitDriver._signal (BitDriver._cr_twiddler 1 0 st') =
          Some [1%Z; 0%Z]
      | None => False
      end
  | None => False
  end.
Proof. split; reflexivity. Qed.

(** The poll loop on Linux, where EAGAIN = EWOULDBLOCK = 11. *)
Lemma poll_loop_cases_witness :
  Socket.polled_socket_attachment (V := Empty_set) (Cb := nat) (Ev := nat)
    11 11 (fun b => List.length b)
    [Socket.SocketError 11; Socket.Data []] init =
  Socket.polled_socket_attachment (V := Empty_set) (Cb := nat) (Ev := nat)
    11 11 (fun b => List.length b) [Socket.Data []] init /\
  Socket.polled_socket_attachment (V := Empty_set) (Cb := nat) (Ev := nat)
    11 11 (fun b => List.length b)
    [Socket.SocketError 104; Socket.Data []] init =
  (Some (Socket.Raise 104), init) /\
  _sendQ (append (V := Empty_set) (Cb := nat) (Ev := nat) 2 None None []
            init) =
  [tuple 0 2 None None []].
Proof.
  destruct (@SocketFacts.poll_loop_cases nat Empty_set nat nat 11%Z 11%Z
              (fun b => List.length b) [Socket.Data []] init)
    as (A & _ & C & D).
  split; [apply A; left; reflexivity|].
  split; [apply C; discriminate|].
  destruct (D [Byte.x01; Byte.x02]) as (_ & _ & E & _); [discriminate|].
  exact E.
Defined.

End Checks.

(** * The two send implementations under the drain task *)
Module SendersFacts.
Import Driver DriverFacts.

Unset Implicit Arguments.

Section Facts.

Variables T V Cb Ev : Type.
Variable task_bool : drain_pc T V Cb Ev -> bool.

Abbreviation dstate := (state T V Cb Ev).
Abbreviation daction := (action T V Cb Ev).
Abbreviation base_run :=
  (@run T V Cb Ev (@base_driver_send T V) task_bool).
Abbreviation dentry := (entry T V Cb Ev).
Abbreviation bus_run :=
  (@run T V Cb Ev (@bus_driver_send T V) task_bool).
Abbreviation bus_send_queued :=
  (@send_queued T V Cb Ev (@bus_driver_send T V)).

Lemma base_step (st : dstate) (a : daction) :
  notes (trace st) = [] /\ in_send st = false /\
  (queued_syncs (trace st) = [] \/
   dead st /\ List.length (queued_syncs (trace st)) = 1) ->
  let st' := @step T V Cb Ev (@base_driver_send T V) task_bool st a in
  notes (trace st') = [] /\ in_send st' = false /\
  (queued_syncs (trace st') = [] \/
   dead st' /\ List.length (queued_syncs (trace st')) = 1).
Proof.
  intros (Hn & Hs & Hq). simpl.
  destruct a; simpl; auto.
  - unfold kill, in_send, dead in *.
    destruct (_thread st) as [pc|] eqn:E; [destruct (task_bool pc)|];
      simpl; rewrite ?E; auto.
    split; [auto|]. split; [auto|].
    destruct Hq as [Hq|[_ Hq]]; auto.
  - unfold _send_thread, in_send, dead in *.
    destruct (_thread st) as [[| |e sync n|x]|] eqn:E; try discriminate;
      rewrite ?E; auto.
    + destruct Hq as [Hq|[[] _]].
      destruct (_sendQ st) as [|e q]; simpl; auto.
      unfold _send, _send_finish. destruct (clashes _); simpl; auto.
      rewrite notes_app, queued_syncs_app, Hn, Hq. simpl. auto.
    + destruct Hq as [Hq|[[] _]].
      destruct (_pending st); rewrite ?E; auto.
      destruct (_sendQ st) as [|e q]; simpl; auto.
      unfold _send, _send_finish. destruct (clashes _); simpl; auto.
      rewrite notes_app, queued_syncs_app, Hn, Hq. simpl. auto.
  - unfold in_send, dead, send, _send, _send_finish in *.
    destruct (clashes _); simpl; auto.
    rewrite notes_app, queued_syncs_app. simpl. rewrite !app_nil_r. auto.
Qed.

(** X8: on the base class, whose [_driver_send] raises
    NotImplementedError, the drain task makes at most one call of
    [_driver_send] in the driver's whole life, and no event is ever set
    and no callback ever called, whatever is appended. *)
Theorem base_driver_sends_at_most_once (sched : list daction) :
  notes (trace (base_run sched init)) = [] /\
  List.length (queued_syncs (trace (base_run sched init))) <= 1.
Proof.
  assert (H : forall (s : list daction) (st : dstate),
    notes (trace st) = [] /\ in_send st = false /\
    (queued_syncs (trace st) = [] \/
     dead st /\ List.length (queued_syncs (trace st)) = 1) ->
    notes (trace (base_run s st)) = [] /\
    List.length (queued_syncs (trace (base_run s st))) <= 1).
  { induction s as [|a s IH]; intros st Hst.
    - simpl. destruct Hst as (Hn & _ & [Hq|[_ Hq]]); rewrite ?Hq; simpl;
        (split; [exact Hn|lia]).
    - simpl. apply IH, base_step, Hst. }
  apply H. simpl. auto.
Qed.

Lemma bus_send_plain (t : T) (sync : bool) :
  _driver_send (DriverSend := @bus_driver_send T V) t sync [] =
  SendRun (if sync then 1 else 0) None.
Proof. reflexivity. Qed.

Lemma bus_send_keyword (t : T) (sync : bool) (kw : kwargs_t V) :
  kw <> [] ->
  _driver_send (DriverSend := @bus_driver_send T V) t sync kw =
  SendRun 0 (Some TypeError).
Proof. destruct kw; [contradiction|reflexivity]. Qed.

Lemma bus_drains_to_keyword (e : dentry) (post : list dentry) :
  kwargs e <> [] ->
  forall pre : list dentry,
    Forall (fun h => kwargs h = []) pre ->
    forall s (st : dstate),
    exists k, forall k', k <= k' ->
      let fin :=
        bus_run (repeat (Resume T V Cb Ev) k')
          (bus_send_queued (pre ++ e :: post) s st) in
      _thread fin = Some (Finished T V Cb Ev TypeError) /\
      sent (trace fin) =
        sent (trace st) ++ ids pre ++
        (if clashes (kwargs e) then [] else [eid e]) /\
      notes (trace fin) = notes (trace st) ++ owed pre.
Proof.
  intros He. induction pre as [|h pre IH]; intros Hf s st.
  - exists 0. intros k' _.
    assert (E : _thread (bus_send_queued ([] ++ e :: post) s st) =
                Some (Finished T V Cb Ev TypeError)).
    { simpl. unfold _send, _send_finish.
      rewrite (bus_send_keyword _ _ _ He).
      destruct (clashes _); reflexivity. }
    cbv zeta.
    rewrite (@resumes_finished T V Cb Ev (@bus_driver_send T V) task_bool
               k' _ TypeError E).
    split; [exact E|]. clear E. simpl.
    unfold _send, _send_finish, sent. rewrite (bus_send_keyword _ _ _ He).
    destruct (clashes _); simpl.
    + now rewrite !app_nil_r.
    + rewrite queued_syncs_app, notes_app, map_app. simpl.
      now rewrite !app_nil_r.
  - inversion Hf as [|h' pre' Hh Hf']; subst.
    assert (Hc : clashes (kwargs h) = false) by now rewrite Hh.
    destruct s.
    + (* synchronised: the call returns at once *)
      simpl app. simpl send_queued.
      unfold _send, _send_finish. rewrite Hc, Hh, bus_send_plain. simpl.
      match goal with
      | |- context [send_queued (pre ++ e :: post) true ?st1] =>
          destruct (IH Hf' true st1) as [k Hk]
      end.
      exists k. intros k' Hle. specialize (Hk k' Hle). cbv zeta in *.
      destruct Hk as (A & B & C). split; [exact A|].
      rewrite B, C. simpl. unfold sent.
      rewrite !queued_syncs_app, !notes_app, queued_syncs_notify,
        notes_notify, map_app.
      simpl. unfold owed. rewrite ?map_app. simpl.
      rewrite ?app_nil_r, <- ?app_assoc. split; reflexivity.
    + (* the first of a batch: one clock edge, then the rest *)
      set (st1 := emit [@ObsDriverSend T V Cb Ev (Queued (eid h))
                          (transaction h) true []]
                    (set_sendQ (pre ++ e :: post) st)).
      set (st2 := emit (notify (Queued (eid h)) (transaction h)
                          (callback h) (event h))
                    (set_thread (Some (InDriverSend h true 0)) st1)).
      destruct (IH Hf' true st2) as [k Hk].
      exists (S k). intros [|m] Hle; [lia|].
      specialize (Hk m ltac:(lia)). cbv zeta in *.
      assert (E : bus_run (repeat (Resume T V Cb Ev) (S m))
                    (bus_send_queued ((h :: pre) ++ e :: post) false st) =
                  bus_run (repeat (Resume T V Cb Ev) m)
                    (bus_send_queued (pre ++ e :: post) true st2)).
      { simpl repeat. rewrite run_cons. f_equal.
        simpl app. simpl send_queued.
        unfold _send, _send_finish. rewrite Hc, Hh, bus_send_plain. simpl.
        unfold _send_thread. simpl.
        unfold _send_finish. rewrite Hh, bus_send_plain. reflexivity. }
      rewrite E. destruct Hk as (A & B & C). split; [exact A|].
      rewrite B, C. unfold st2, st1. simpl. unfold sent.
      rewrite !queued_syncs_app, !notes_app, queued_syncs_notify,
        notes_notify, map_app.
      simpl. unfold owed. rewrite ?map_app. simpl.
      rewrite ?app_nil_r, <- ?app_assoc. split; reflexivity.
Qed.


End Facts.
End SendersFacts.

(** * BitDriver over time *)
Module BitDriverRunFacts.
Import BitDriver BitDriverRun.

Unset Implicit Arguments.

Lemma set_task_nil (i : nat) (pc : twiddler_pc) : set_task i pc [] = [].
Proof. unfold set_task. now destruct i. Qed.

Lemma set_task_succ (i : nat) (pc x : twiddler_pc) (ts : list twiddler_pc) :
  set_task (S i) pc (x :: ts) = x :: set_task i pc ts.
Proof. reflexivity. Qed.

Lemma nth_error_set_task_eq :
  forall (ts : list twiddler_pc) (i : nat) (pc : twiddler_pc),
    i < List.length ts -> nth_error (set_task i pc ts) i = Some pc.
Proof.
  induction ts as [|x ts IH]; intros i pc Hi; simpl in Hi; [lia|].
  destruct i as [|i]; [reflexivity|].
  rewrite set_task_succ. simpl. apply IH. lia.
Qed.

Lemma nth_error_set_task_ne :
  forall (ts : list twiddler_pc) (i j : nat) (pc : twiddler_pc),
    i <> j -> nth_error (set_task i pc ts) j = nth_error ts j.
Proof.
  induction ts as [|x ts IH]; intros i j pc Hij.
  - now rewrite set_task_nil.
  - destruct i as [|i].
    + destruct j as [|j]; [contradiction|reflexivity].
    + rewrite set_task_succ. destruct j as [|j]; [reflexivity|].
      simpl. apply IH. lia.
Qed.

Lemma set_task_twice :
  forall (ts : list twiddler_pc) (i : nat) (pc pc' : twiddler_pc),
    set_task i pc' (set_task i pc ts) = set_task i pc' ts.
Proof.
  induction ts as [|x ts IH]; intros i pc pc'.
  - now rewrite !set_task_nil.
  - destruct i as [|i]; [reflexivity|].
    rewrite !set_task_succ. f_equal. apply IH.
Qed.

Lemma set_task_same :
  forall (ts : list twiddler_pc) (i : nat) (pc : twiddler_pc),
    nth_error ts i = Some pc -> set_task i pc ts = ts.
Proof.
  induction ts as [|x ts IH]; intros i pc H.
  - now rewrite set_task_nil.
  - destruct i as [|i]; simpl in H.
    + now injection H as ->.
    + rewrite set_task_succ. f_equal. now apply IH.
Qed.

Lemma length_set_task :
  forall (ts : list twiddler_pc) (i : nat) (pc : twiddler_pc),
    List.length (set_task i pc ts) = List.length ts.
Proof.
  induction ts as [|x ts IH]; intros i pc.
  - now rewrite set_task_nil.
  - destruct i as [|i]; [reflexivity|].
    rewrite set_task_succ. simpl. now rewrite IH.
Qed.

Lemma edges_add (fuel i a b : nat) (st : state) :
  edges fuel i (a + b) st =
  match edges fuel i a st with
  | Some st' => edges fuel i b st'
  | None => None
  end.
Proof.
  revert st. induction a as [|a IH]; intros st; simpl; auto.
  destruct (_cr_twiddler fuel i st); auto.
Qed.

Lemma edges_succ (fuel i k : nat) (st : state) :
  edges fuel i (S k) st =
  match _cr_twiddler fuel i st with
  | Some st' => edges fuel i k st'
  | None => None
  end.
Proof. reflexivity. Qed.

Section OneTask.

Variables (fuel i : nat) (base : list twiddler_pc) (cr : option nat).
Hypothesis in_range : i < List.length base.

(** The driver with task [i] at [pc]. *)
Abbreviation at_pc sig gen pc := (State sig gen (set_task i pc base) cr).

Lemma high_phase (k n : nat) (n_off : Z) (sig : list Z)
    (gen : option generator) :
  edges fuel i k (at_pc sig gen (High (k + n) n_off)) =
  Some (at_pc sig gen (High n n_off)).
Proof.
  induction k as [|k IH]; [reflexivity|].
  simpl. unfold _cr_twiddler. simpl.
  rewrite nth_error_set_task_eq by exact in_range.
  rewrite set_task_twice. exact IH.
Qed.

Lemma low_phase (k m : nat) (sig : list Z) (gen : option generator) :
  edges fuel i k (at_pc sig gen (Low (k + m))) =
  Some (at_pc sig gen (Low m)).
Proof.
  induction k as [|k IH]; [reflexivity|].
  simpl. unfold _cr_twiddler. simpl.
  rewrite nth_error_set_task_eq by exact in_range.
  rewrite set_task_twice. exact IH.
Qed.

Lemma high_run (k : nat) (n_off : Z) (sig : list Z)
    (gen : option generator) :
  edges fuel i k (at_pc sig gen (High k n_off)) =
  Some (at_pc sig gen (High 0 n_off)).
Proof.
  pose proof (high_phase k 0 n_off sig gen) as H.
  now rewrite Nat.add_0_r in H.
Qed.

Lemma low_run (k : nat) (sig : list Z) (gen : option generator) :
  edges fuel i k (at_pc sig gen (Low k)) = Some (at_pc sig gen (Low 0)).
Proof.
  pose proof (low_phase k 0 sig gen) as H.
  now rewrite Nat.add_0_r in H.
Qed.

Lemma high_end (m : nat) (sig : list Z) (gen : option generator) :
  _cr_twiddler fuel i (at_pc sig gen (High 0 (Z.of_nat (S m)))) =
  Some (at_pc (sig ++ [0%Z]) gen (Low m)).
Proof.
  unfold _cr_twiddler. cbn [tasks _generator _signal _cr].
  rewrite nth_error_set_task_eq by exact in_range.
  cbv beta iota. rewrite Nat2Z.id. now rewrite set_task_twice.
Qed.

Lemma low_end (n : nat) (n_off : Z) (sig : list Z) (g : generator) :
  gen_items g (gen_pos g) = Some (Z.of_nat (S n), n_off) ->
  _cr_twiddler (S fuel) i (at_pc sig (Some g) (Low 0)) =
  Some (at_pc (sig ++ [1%Z])
          (Some (Generator (gen_items g) (S (gen_pos g)))) (High n n_off)).
Proof.
  intros Hg. unfold _cr_twiddler. cbn [tasks _generator _signal _cr].
  rewrite nth_error_set_task_eq by exact in_range.
  cbv beta iota. unfold enter_loop.
  change (twiddle (S fuel) sig g)
    with (match next g with
          | None => Some (sig, g, Failed StopIterationInTask)
          | Some ((n_on, n_off), g') =>
              match Z.to_nat n_on with
              | S n => Some (sig ++ [1%Z], g', High n n_off)
              | O =>
                  match Z.to_nat n_off with
                  | S m => Some (sig ++ [1%Z; 0%Z], g', Low m)
                  | O => twiddle fuel (sig ++ [1%Z; 0%Z]) g'
                  end
              end
          end).
  unfold next. rewrite Hg, Nat2Z.id. cbn [tasks _cr].
  now rewrite set_task_twice.
Qed.

End OneTask.

Lemma toggles_snoc (p : nat) :
  toggles (S p) = toggles p ++ [0%Z; 1%Z].
Proof.
  induction p as [|p IH]; [reflexivity|].
  simpl in *. now rewrite <- IH.
Qed.

Lemma level_snoc (sig : list Z) (x : Z) (gen : option generator)
    (ts : list twiddler_pc) (cr : option nat) :
  level (State (sig ++ [x]) gen ts cr) = Some x.
Proof.
  unfold level. simpl. rewrite map_app. simpl. apply last_last.
Qed.

Section Waveform.

Variables (fuel i n m : nat) (base : list twiddler_pc) (cr : option nat).
Variables (sig : list Z) (g : generator).
Hypothesis in_range : i < List.length base.
Hypothesis steady :
  forall j, gen_items g (gen_pos g + j) = Some (Z.of_nat (S n), Z.of_nat (S m)).

(** The driver [p] whole periods later. *)
Abbreviation after p extra pc :=
  (State (sig ++ toggles p ++ extra)
         (Some (Generator (gen_items g) (gen_pos g + p)))
         (set_task i pc base) cr).

Lemma one_period (p : nat) :
  edges (S fuel) i (S n + S m) (after p [] (High n (Z.of_nat (S m)))) =
  Some (after (S p) [] (High n (Z.of_nat (S m)))).
Proof.
  replace (S n + S m) with (n + S (m + 1)) by lia.
  rewrite edges_add, (high_run (S fuel) i base cr in_range n).
  rewrite edges_succ, (high_end (S fuel) i base cr in_range m).
  rewrite edges_add, (low_run (S fuel) i base cr in_range m).
  rewrite edges_succ.
  rewrite (low_end fuel i base cr in_range n (Z.of_nat (S m)))
    by (simpl; apply steady).
  simpl edges. simpl gen_items. simpl gen_pos.
  rewrite toggles_snoc, !app_nil_r, <- !app_assoc. simpl.
  now rewrite Nat.add_succ_r.
Qed.

Lemma periods (p : nat) :
  edges (S fuel) i (p * (S n + S m)) (after 0 [] (High n (Z.of_nat (S m)))) =
  Some (after p [] (High n (Z.of_nat (S m)))).
Proof.
  induction p as [|p IH]; [reflexivity|].
  replace (S p * (S n + S m)) with (p * (S n + S m) + (S n + S m)) by lia.
  rewrite edges_add, IH. apply one_period.
Qed.

Lemma within_high (p r : nat) :
  r <= n ->
  edges (S fuel) i r (after p [] (High n (Z.of_nat (S m)))) =
  Some (after p [] (High (n - r) (Z.of_nat (S m)))).
Proof.
  intros Hr.
  replace n with (r + (n - r)) at 1 by lia.
  apply (high_phase (S fuel) i base cr in_range).
Qed.

Lemma within_low (p r : nat) :
  r <= m ->
  edges (S fuel) i (S n + r) (after p [] (High n (Z.of_nat (S m)))) =
  Some (after p [0%Z] (Low (m - r))).
Proof.
  intros Hr.
  replace (S n + r) with (n + S r) by lia.
  rewrite edges_add, (high_run (S fuel) i base cr in_range n).
  rewrite edges_succ, (high_end (S fuel) i base cr in_range m).
  replace m with (r + (m - r)) at 1 by lia.
  rewrite (low_phase (S fuel) i base cr in_range).
  now rewrite !app_nil_r, <- app_assoc.
Qed.

Lemma level_after_high (p : nat) (pc : twiddler_pc) :
  last (map Some sig) None = Some 1%Z ->
  level (after p [] pc) = Some 1%Z.
Proof.
  intros H. rewrite app_nil_r. destruct p as [|p].
  - simpl toggles. rewrite app_nil_r. exact H.
  - rewrite toggles_snoc.
    change [0%Z; 1%Z] with ([0%Z] ++ [1%Z]).
    rewrite !app_assoc. apply level_snoc.
Qed.

Lemma waveform (k : nat) :
  last (map Some sig) None = Some 1%Z ->
  exists st',
    edges (S fuel) i k (after 0 [] (High n (Z.of_nat (S m)))) = Some st' /\
    level st' = Some (if k mod (S n + S m) <? S n then 1%Z else 0%Z).
Proof.
  intros Hl.
  pose proof (Nat.div_mod_eq k (S n + S m)) as E.
  pose proof (Nat.mod_upper_bound k (S n + S m) ltac:(lia)) as B.
  set (p := k / (S n + S m)) in *. set (r := k mod (S n + S m)) in *.
  rewrite E, (Nat.mul_comm _ p), edges_add, periods.
  destruct (r <? S n) eqn:Hr.
  - apply Nat.ltb_lt in Hr. rewrite within_high by lia.
    eexists. split; [reflexivity|]. now apply level_after_high.
  - apply Nat.ltb_ge in Hr.
    replace r with (S n + (r - S n)) by lia.
    rewrite within_low by lia.
    eexists. split; [reflexivity|].
    rewrite !app_assoc. apply level_snoc.
Qed.

End Waveform.

(** X14: the duty cycle.  A task that has driven the signal high for a
    pair [(on, off)], with a generator that keeps yielding that same pair
    ([on >= 1], [off >= 1]), holds the signal high for exactly [on] clock
    periods and low for exactly [off], over and over: after [k] rising
    edges the signal is 1 if [k mod (on + off) < on] and 0 otherwise.  The
    task always gets to its next await. *)
Theorem bit_driver_waveform (fuel i n m k : nat) (st : state)
    (g : generator) :
  nth_error (tasks st) i = Some (High n (Z.of_nat (S m))) ->
  _generator st = Some g ->
  (forall j,
     gen_items g (gen_pos g + j) = Some (Z.of_nat (S n), Z.of_nat (S m))) ->
  level st = Some 1%Z ->
  exists st',
    edges (S fuel) i k st = Some st' /\
    level st' = Some (if k mod (S n + S m) <? S n then 1%Z else 0%Z).
Proof.
  intros Ht Hg Hs Hl.
  assert (Hi : i < List.length (tasks st))
    by (apply nth_error_Some; rewrite Ht; discriminate).
  destruct (waveform fuel i n m (tasks st) (_cr st) (_signal st) g Hi Hs k Hl)
    as (st' & E & L).
  exists st'. split; [|exact L]. rewrite <- E. f_equal.
  destruct st as [sg gn ts c]. simpl in *. subst gn.
  rewrite (set_task_same ts i _ Ht), Nat.add_0_r, !app_nil_r.
  now destruct g.
Qed.

(** *** stop *)

Lemma edges_fixed (fuel i : nat) (st : state) :
  _cr_twiddler fuel i st = Some st ->
  forall k, edges fuel i k st = Some st.
Proof.
  intros H k. induction k as [|k IH]; [reflexivity|].
  simpl. now rewrite H.
Qed.

(** X15: [stop] ends the task whose handle [start] kept, for good.  On a
    driver that was started, [stop] returns, assigns nothing to the
    signal, and however many clock edges follow, that task is never run
    again: the state no longer changes. *)
Theorem stop_ends_the_task (i : nat) (st : state) :
  _cr st = Some i ->
  exists st',
    stop st = inr st' /\ _signal st' = _signal st /\
    forall fuel k, edges fuel i k st' = Some st'.
Proof.
  intros Hc. unfold stop. rewrite Hc.
  destruct (nth_error (tasks st) i) as [pc|] eqn:Ht.
  - assert (Hi : i < List.length (tasks st))
      by (apply nth_error_Some; rewrite Ht; discriminate).
    assert (K : forall fuel k,
      edges fuel i k
        (State (_signal st) (_generator st) (set_task i Killed (tasks st))
               (_cr st)) =
      Some (State (_signal st) (_generator st)
                  (set_task i Killed (tasks st)) (_cr st))).
    { intros fuel k. apply edges_fixed. unfold _cr_twiddler. simpl.
      now rewrite nth_error_set_task_eq. }
    rewrite Hc in K.
    destruct pc; eexists; (split; [reflexivity|]); (split; [reflexivity|]);
      try exact K;
      intros fuel k; apply edges_fixed; unfold _cr_twiddler; now rewrite Ht.
  - eexists. split; [reflexivity|]. split; [reflexivity|].
    intros fuel k. apply edges_fixed. unfold _cr_twiddler. now rewrite Ht.
Qed.

Lemma enter_loop_frame (fuel i : nat) (sig : list Z) (g : generator)
    (st st' : state) :
  enter_loop fuel i sig g st = Some st' ->
  _cr st' = _cr st /\
  forall j, j <> i -> nth_error (tasks st') j = nth_error (tasks st) j.
Proof.
  unfold enter_loop. destruct (twiddle fuel sig g) as [[[sig' g'] pc]|];
    [|discriminate].
  intros [= <-]. simpl. split; [reflexivity|].
  intros j Hj. apply nth_error_set_task_ne. auto.
Qed.

Lemma twiddler_frame (fuel i : nat) (st st' : state) :
  _cr_twiddler fuel i st = Some st' ->
  _cr st' = _cr st /\
  forall j, j <> i -> nth_error (tasks st') j = nth_error (tasks st) j.
Proof.
  unfold _cr_twiddler.
  destruct (nth_error (tasks st) i) as [[gen|[|n] n_off|[|m]|x|]|];
    try (intros [= <-]; simpl; split; [reflexivity|]; intros j Hj;
         try apply nth_error_set_task_ne; auto).
  - destruct gen as [g|]; [apply enter_loop_frame|].
    destruct (_generator st) as [g|]; [apply enter_loop_frame|].
    intros [= <-]. simpl. split; [reflexivity|].
    intros j Hj. apply nth_error_set_task_ne. auto.
  - destruct (Z.to_nat n_off).
    + destruct (_generator st) as [g|]; [apply enter_loop_frame|].
      intros [= <-]. auto.
    + intros [= <-]. simpl. split; [reflexivity|].
      intros j Hj. apply nth_error_set_task_ne. auto.
  - destruct (_generator st) as [g|]; [apply enter_loop_frame|].
    intros [= <-]. auto.
Qed.

(** X16: [start] does not stop a task that an earlier [start] forked, and
    [stop] reaches only the task of the latest [start].  After [start]
    followed by [stop], every task that existed before is exactly where it
    was, still scheduled if it was. *)
Theorem earlier_tasks_outlive_restart (eager : bool) (fuel : nat)
    (generator : option generator) (st st1 st2 : state) (j : nat) :
  start eager fuel generator st = Some st1 ->
  stop st1 = inr st2 ->
  j < List.length (tasks st) ->
  nth_error (tasks st2) j = nth_error (tasks st) j.
Proof.
  intros Hs Hp Hj.
  assert (A : _cr st1 = Some (List.length (tasks st)) /\
              nth_error (tasks st1) j = nth_error (tasks st) j).
  { unfold start in Hs. destruct eager.
    - apply twiddler_frame in Hs as [Hc Ht]. simpl in *.
      split; [exact Hc|]. rewrite Ht by lia. now apply nth_error_app1.
    - injection Hs as <-. simpl. split; [reflexivity|].
      now apply nth_error_app1. }
  destruct A as [Hc Ht]. unfold stop in Hp. rewrite Hc in Hp.
  destruct (nth_error (tasks st1) (List.length (tasks st)))
    as [[gen|n n_off|m|x|]|]; injection Hp as <-; simpl; auto;
    rewrite nth_error_set_task_ne by lia; exact Ht.
Qed.

End BitDriverRunFacts.

(** * polled_socket_attachment over a whole connection *)
Module SocketRunFacts.
Import Socket SocketRun.

Unset Implicit Arguments.

Section Facts.

Variables T V Cb Ev : Type.
Variables EAGAIN EWOULDBLOCK : Z.
Variable of_bytes : list Byte.byte -> T.

Abbreviation dstate := (Driver.state T V Cb Ev).
Abbreviation poll := (@poll_once T V Cb Ev EAGAIN EWOULDBLOCK of_bytes).
Abbreviation attach :=
  (@polled_socket_attachment T V Cb Ev EAGAIN EWOULDBLOCK of_bytes).
Abbreviation queue_up := (@enqueue T V Cb Ev of_bytes).
Abbreviation is_end := (ends EAGAIN EWOULDBLOCK).

Lemma poll_goes_on (r : recv_result) (st : dstate) :
  is_end r = false -> poll r st = (Continue, queue_up (chunks [r]) st).
Proof.
  unfold ends, poll_once. destruct r as [[|b d]|e]; simpl.
  - discriminate.
  - reflexivity.
  - destruct ((e =? EAGAIN) || (e =? EWOULDBLOCK))%Z; [reflexivity|discriminate].
Qed.

Lemma poll_ends (r : recv_result) (st : dstate) :
  is_end r = true -> poll r st = (ending r, st).
Proof.
  unfold ends, poll_once. destruct r as [[|b d]|e]; simpl.
  - reflexivity.
  - discriminate.
  - destruct ((e =? EAGAIN) || (e =? EWOULDBLOCK))%Z; [discriminate|reflexivity].
Qed.

Lemma queue_up_app (a b : list (list Byte.byte)) (st : dstate) :
  queue_up (a ++ b) st = queue_up b (queue_up a st).
Proof. apply fold_left_app. Qed.

Lemma attach_goes_on :
  forall (pre rest : list recv_result) (st : dstate),
    Forall (fun r => is_end r = false) pre ->
    attach (pre ++ rest) st = attach rest (queue_up (chunks pre) st).
Proof.
  induction pre as [|r pre IH]; intros rest st H; [reflexivity|].
  inversion H as [|r' pre' Hr Hpre]; subst.
  simpl app. simpl polled_socket_attachment.
  rewrite (poll_goes_on r st Hr), IH by assumption.
  rewrite <- queue_up_app. f_equal. f_equal.
  unfold chunks. simpl. now rewrite app_nil_r.
Qed.

Lemma queue_up_queue :
  forall (cs : list (list Byte.byte)) (st : dstate),
    map (@Driver.transaction _ _ _ _) (Driver._sendQ (queue_up cs st)) =
    map (@Driver.transaction _ _ _ _) (Driver._sendQ st) ++ map of_bytes cs.
Proof.
  induction cs as [|c cs IH]; intros st; simpl.
  - now rewrite app_nil_r.
  - fold (queue_up cs (Driver.append (of_bytes c) None None [] st)).
    rewrite IH. simpl. rewrite map_app. simpl. now rewrite <- app_assoc.
Qed.

(** X17: what a whole run of the poll loop does to the driver.  Over
    turns that are would-block errors or non-empty reads, followed by an
    empty read or another socket error, the loop ends at that turn (by
    leaving the loop on the empty read, by the exception otherwise) and
    reads no further; the driver's queue has gained exactly the chunks
    read before, one transaction per chunk, in arrival order, and
    would-block turns have left no mark.  Before that turn the coroutine
    is still polling. *)
Theorem socket_chunks_queued_in_order (pre post : list recv_result)
    (r : recv_result) (st : dstate) :
  Forall (fun r => is_end r = false) pre ->
  is_end r = true ->
  attach pre st = (None, queue_up (chunks pre) st) /\
  attach (pre ++ r :: post) st =
    (Some (ending r), queue_up (chunks pre) st) /\
  map (@Driver.transaction _ _ _ _)
      (Driver._sendQ (queue_up (chunks pre) st)) =
    map (@Driver.transaction _ _ _ _) (Driver._sendQ st) ++
    map of_bytes (chunks pre).
Proof.
  intros Hpre Hr. split; [|split].
  - rewrite <- (app_nil_r pre) at 1. now rewrite attach_goes_on.
  - rewrite attach_goes_on by assumption. simpl.
    rewrite (poll_ends r _ Hr). now destruct r as [d|e].
  - apply queue_up_queue.
Qed.

End Facts.
End SocketRunFacts.

(** * The name of a bus *)
Module BusDriverFacts.
Import BusDriver.

Unset Implicit Arguments.

Local Open Scope string_scope.

Lemma append_inv_head (s a b : string) : s ++ a = s ++ b -> a = b.
Proof.
  induction s as [|c s IH]; simpl; intros H; [exact H|].
  injection H as H. now apply IH.
Qed.

Lemma to_int_not_nil (z : Z) :
  Z.to_int z <> Decimal.Pos Decimal.Nil /\
  Z.to_int z <> Decimal.Neg Decimal.Nil.
Proof.
  split; intros H; pose proof (f_equal Z.of_int H) as E;
    rewrite DecimalZ.of_to in E; simpl in E; subst z; discriminate H.
Qed.

Lemma py_decimal_inj (i j : Z) : py_decimal i = py_decimal j -> i = j.
Proof.
  unfold py_decimal. intros H.
  apply (f_equal NilZero.int_of_string) in H.
  destruct (to_int_not_nil i) as [A B], (to_int_not_nil j) as [C D].
  rewrite !NilZero.isi in H by assumption.
  injection H as H. now apply DecimalZ.to_int_inj.
Qed.

(** X18: the buses of an array get distinct names.  For one bus name
    (or none), two array indices give the same printed name only if they
    are the same index. *)
Theorem array_names_distinct (bus : option string) (i j : Z) :
  __str__ (name bus (Some i)) = __str__ (name bus (Some j)) -> i = j.
Proof.
  unfold __str__, name, py_str. intros H.
  apply append_inv_head in H. apply (append_inv_head "_") in H.
  now apply py_decimal_inj.
Qed.

End BusDriverFacts.

(** * More closed instances on the test bench *)
Module MoreChecks.
Import Driver DriverFacts Bench Bench2.

Unset Implicit Arguments.

Lemma never_asleep_on_work_witness :
  _thread (run_bus (three_appends ++ [resume; resume])) =
    Some (AtPendingWait _ _ _ _) /\
  _pending (run_bus (three_appends ++ [resume; resume])) = false /\
  _sendQ (run_bus (three_appends ++ [resume; resume])) = [].
Proof.
  split; [reflexivity|]. split; [reflexivity|].
  apply (@never_asleep_on_work nat Empty_set nat nat bus running
           (three_appends ++ [resume; resume])); reflexivity.
Defined.

Lemma raised_send_is_fatal_witness :
  _thread (run_base [resume; Driver.Append 10 None None []; resume]) =
    Some (Finished _ _ _ _ NotImplementedError) /\
  queued_syncs
    (trace (run_base ([resume; Driver.Append 10 None None []; resume] ++
                      [Driver.Append 20 (Some 1) (Some 2) []; resume;
                       resume]))) =
    queued_syncs
      (trace (run_base [resume; Driver.Append 10 None None []; resume])) /\
  notes
    (trace (run_base ([resume; Driver.Append 10 None None []; resume] ++
                      [Driver.Append 20 (Some 1) (Some 2) []; resume;
                       resume]))) =
    notes (trace (run_base [resume; Driver.Append 10 None None []; resume])).
Proof.
  split; [reflexivity|].
  apply (@raised_send_is_fatal nat Empty_set nat nat
           (@base_driver_send nat Empty_set) running
           [resume; Driver.Append 10 None None []; resume]
           [Driver.Append 20 (Some 1) (Some 2) []; resume; resume]
           NotImplementedError).
  reflexivity.
Defined.





Lemma burst_syncs_first_only_witness :
  exists l,
    queued_syncs
      (trace (run_bus ([resume; Driver.Append 10 None None []] ++
                       resume ::
                       [Driver.Append 20 None None [];
                        Driver.Append 30 None None []; resume]))) =
    queued_syncs
      (trace (run_bus [resume; Driver.Append 10 None None []])) ++
      (0, true) :: map (fun i => (i, false)) l.
Proof.
  apply (@burst_syncs_first_only nat Empty_set nat nat bus running
           [resume; Driver.Append 10 None None []]
           [Driver.Append 20 None None []; Driver.Append 30 None None [];
            resume]
           (tuple 0 10 None None []) []); reflexivity.
Defined.

(** A keyword that [_send] accepts reaches [BusDriver._driver_send],
    which does not take it; the keyword [sync] does not get that far. *)
Example keyword_traces :
  trace (run_kw (with_kwargs ++ [Resume nat nat nat nat])) =
    [@ObsDriverSend nat nat nat nat (Queued 0) 10 true
       [("strobe"%string, 1)]] /\
  _thread (run_kw (with_kwargs ++ [Resume nat nat nat nat])) =
    Some (Finished _ _ _ _ TypeError) /\
  trace (run_kw (sync_keyword ++ [Resume nat nat nat nat])) = [] /\
  _thread (run_kw (sync_keyword ++ [Resume nat nat nat nat])) =
    Some (Finished _ _ _ _ TypeError) /\
  send (DS := @bus_driver_send nat nat) 10 true [("event"%string, 0)]
    (run_kw sync_keyword) = run_kw sync_keyword.
Proof. repeat split; vm_compute; reflexivity. Qed.


Lemma next_valids_skips_witness :
  ValidatedBusDriver._next_valids 4
    (ValidatedBusDriver.State ValidatedBusDriver.PyNone
       ValidatedBusDriver.PyNone
       (Some (gen_of_list ([(0, 3); (0, 2)] ++ (5, 1) :: [(7, 7)])%Z)) []) =
  Some (ValidatedBusDriver.State (ValidatedBusDriver.PyInt 5)
          (ValidatedBusDriver.PyInt 1)
          (Some (ValidatedBusDriver.advanced
                   (gen_of_list ([(0, 3); (0, 2)] ++ (5, 1) :: [(7, 7)])%Z)
                   3))
          [ValidatedBusDriver.DebugWillBeOn (ValidatedBusDriver.PyInt 5)
             (ValidatedBusDriver.PyInt 1)]).
Proof.
  apply (ValidatedBusDriverFacts.next_valids_skips
           [(0, 3); (0, 2)]%Z 5 1 [(7, 7)]%Z
           (ValidatedBusDriver.State ValidatedBusDriver.PyNone
              ValidatedBusDriver.PyNone
              (Some (gen_of_list ([(0, 3); (0, 2)] ++ (5, 1) :: [(7, 7)])%Z))
              []) 0).
  - repeat constructor.
  - discriminate.
  - reflexivity.
Defined.

Lemma next_valids_on_truthy_witness :
  ValidatedBusDriver.truthy (ValidatedBusDriver.PyBool true) = true.
Proof.
  apply (ValidatedBusDriverFacts.next_valids_on_truthy 3 one_zero_pair
           (ValidatedBusDriver.State (ValidatedBusDriver.PyBool true)
              (ValidatedBusDriver.PyInt 3)
              (Some (ValidatedBusDriver.advanced (gen_of_list [(0, 3)]%Z) 1))
              [ValidatedBusDriver.InfoExhausted])).
  reflexivity.
Defined.

Lemma zero_on_forever_never_returns_witness :
  ValidatedBusDriver._next_valids 50
    (ValidatedBusDriver.State ValidatedBusDriver.PyNone
       ValidatedBusDriver.PyNone (Some (gen_cycle [(0, 1)]%Z)) []) = None.
Proof.
  apply (ValidatedBusDriverFacts.zero_on_forever_never_returns
           (gen_cycle [(0, 1)]%Z)).
  - reflexivity.
  - intros i. exists 1%Z. simpl. reflexivity.
Defined.

Lemma next_valids_settles_on_first_usable_witness :
  ValidatedBusDriver.left_exhausted one_zero_pair
    (ValidatedBusDriver.State (ValidatedBusDriver.PyBool true)
       (ValidatedBusDriver.PyInt 3)
       (Some (ValidatedBusDriver.advanced (gen_of_list [(0, 3)]%Z) 1))
       [ValidatedBusDriver.InfoExhausted]) \/
  exists n a b,
    (forall i, i < n ->
       exists b', gen_items (gen_of_list [(0, 3)]%Z)
                    (gen_pos (gen_of_list [(0, 3)]%Z) + i) = Some (0%Z, b')) /\
    gen_items (gen_of_list [(0, 3)]%Z)
      (gen_pos (gen_of_list [(0, 3)]%Z) + n) = Some (a, b) /\
    a <> 0%Z /\
    ValidatedBusDriver.PyBool true = ValidatedBusDriver.PyInt a /\
    ValidatedBusDriver.PyInt 3 = ValidatedBusDriver.PyInt b /\
    Some (ValidatedBusDriver.advanced (gen_of_list [(0, 3)]%Z) 1) =
      Some (ValidatedBusDriver.advanced (gen_of_list [(0, 3)]%Z) (S n)).
Proof.
  apply (ValidatedBusDriverFacts.next_valids_settles_on_first_usable 3
           (gen_of_list [(0, 3)]%Z) one_zero_pair
           (ValidatedBusDriver.State (ValidatedBusDriver.PyBool true)
              (ValidatedBusDriver.PyInt 3)
              (Some (ValidatedBusDriver.advanced (gen_of_list [(0, 3)]%Z) 1))
              [ValidatedBusDriver.InfoExhausted]));
    reflexivity.
Defined.

(** [two_one] is the driver right after [start]. *)
Example two_one_started :
  BitDriver.start true 1 (Some (gen_cycle [(2, 1)]%Z)) (BitDriver.init None) =
  Some two_one.
Proof. reflexivity. Qed.

Lemma bit_driver_waveform_witness :
  exists st',
    BitDriverRun.edges 1 0 7 two_one = Some st' /\
    BitDriverRun.level st' = Some (if 7 mod (2 + 1) <? 2 then 1%Z else 0%Z).
Proof.
  apply (BitDriverRunFacts.bit_driver_waveform 0 0 1 0 7 two_one
           (Generator (gen_items (gen_cycle [(2, 1)]%Z)) 1)).
  - reflexivity.
  - reflexivity.
  - intros j. simpl. reflexivity.
  - reflexivity.
Defined.

Lemma stop_ends_the_task_witness :
  exists st',
    BitDriver.stop two_one = inr st' /\
    BitDriver._signal st' = BitDriver._signal two_one /\
    forall fuel k, BitDriverRun.edges fuel 0 k st' = Some st'.
Proof.
  apply (BitDriverRunFacts.stop_ends_the_task 0 two_one). reflexivity.
Defined.

Lemma earlier_tasks_outlive_restart_witness :
  nth_error
    (BitDriver.tasks
       (BitDriver.State [1%Z]
          (Some (Generator (gen_items (gen_cycle [(2, 1)]%Z)) 1))
          [BitDriver.High 1 1; BitDriver.Killed] (Some 1))) 0 =
  nth_error (BitDriver.tasks two_one) 0.
Proof.
  apply (BitDriverRunFacts.earlier_tasks_outlive_restart false 0 None
           two_one
           (BitDriver.State [1%Z]
              (Some (Generator (gen_items (gen_cycle [(2, 1)]%Z)) 1))
              [BitDriver.High 1 1; BitDriver.Created None] (Some 1))
           (BitDriver.State [1%Z]
              (Some (Generator (gen_items (gen_cycle [(2, 1)]%Z)) 1))
              [BitDriver.High 1 1; BitDriver.Killed] (Some 1)) 0).
  - reflexivity.
  - reflexivity.
  - simpl. lia.
Defined.

Lemma socket_chunks_queued_in_order_witness :
  Socket.polled_socket_attachment (V := Empty_set) (Cb := nat) (Ev := nat)
    11 11 (fun b => List.length b)
    (connection ++ Socket.Data [] :: [Socket.Data [Byte.x04]]) init =
    (Some Socket.Break,
     SocketRun.enqueue (fun b => List.length b)
       (SocketRun.chunks connection) init) /\
  map (@transaction _ _ _ _)
    (_sendQ (SocketRun.enqueue (V := Empty_set) (Cb := nat) (Ev := nat)
               (fun b => List.length b) (SocketRun.chunks connection) init)) =
    [1; 2].
Proof.
  destruct (@SocketRunFacts.socket_chunks_queued_in_order nat Empty_set nat
              nat 11%Z 11%Z (fun b => List.length b) connection
              [Socket.Data [Byte.x04]] (Socket.Data []) init)
    as (_ & A & B).
  - repeat constructor.
  - reflexivity.
  - split; [exact A|exact B].
Defined.

Lemma array_names_distinct_witness :
  BusDriver.__str__ (BusDriver.name (Some "data"%string) (Some 3%Z)) =
    "data_3"%string /\
  3%Z = 3%Z.
Proof.
  split; [reflexivity|].
  apply (BusDriverFacts.array_names_distinct (Some "data"%string) 3 3).
  reflexivity.
Defined.

End MoreChecks.
